(** * ReShade: object private data, Vulkan device bookkeeping and INI values

    A shallow embedding of
    - [api_object_impl] (source/addon.hpp): the per-object private data table,
    - [reshade::vulkan::device_impl] (header): object registration through the
      Vulkan private-data slot, the transient descriptor pool ring, the
      render pass lookup and the constant members,
    - [ini_file::load] / [ini_file::save] (ini_file.cpp): value splitting,
      value escaping and the modification flag. *)

From Stdlib Require Import ZArith List Lia Ascii Bool Arith.
From coqutil Require Import Byte.
From coqutil Require Import Word.LittleEndianList.
From stdpp Require Import gmap list.
Import ListNotations.

(** ** source/addon.hpp : api_object_impl *)

Module PrivateData.

Local Open Scope Z_scope.

#[global] Instance byte_eq_dec : EqDecision byte.
Proof.
  intros a b. destruct (decide (byte.unsigned a = byte.unsigned b)) as [e|n].
  - left. exact (byte.unsigned_inj a b e).
  - right. intros ->. exact (n eq_refl).
Defined.

(** [struct private_data { uint64_t data; uint64_t guid[2]; }] *)
Record private_data := { data : Z; guid : Z * Z }.

(** The 16 bytes that [it->guid] occupies in memory (little-endian host). *)
Definition guid_bytes (it : private_data) : list byte :=
  le_split 8 (fst (guid it)) ++ le_split 8 (snd (guid it)).

(** [reinterpret_cast<const uint64_t *>(guid)[i]] *)
Definition guid_word (g : list byte) (i : nat) : Z :=
  le_combine (firstn 8 (skipn (8 * i) g)).

(** [std::memcmp]: sign of the difference of the first differing bytes. *)
Fixpoint memcmp (a b : list byte) (n : nat) : Z :=
  match n with
  | O => 0
  | S n' =>
      match a, b with
      | x :: a', y :: b' =>
          if byte.unsigned x =? byte.unsigned y then memcmp a' b' n'
          else byte.unsigned x - byte.unsigned y
      | _, _ => 0
      end
  end.

(** [std::vector<private_data> _private_data] *)
Definition table := list private_data.

Fixpoint get_private_data (t : table) (g : list byte) : Z :=
  match t with
  | [] => 0
  | it :: rest =>
      if memcmp (guid_bytes it) g 16 =? 0 then data it
      else get_private_data rest g
  end.

Fixpoint set_private_data (t : table) (g : list byte) (d : Z) : table :=
  match t with
  | [] =>
      if negb (d =? 0)
      then [ {| data := d; guid := (guid_word g 0, guid_word g 1) |} ]
      else []
  | it :: rest =>
      if memcmp (guid_bytes it) g 16 =? 0 then
        if negb (d =? 0) then {| data := d; guid := guid it |} :: rest
        else rest
      else it :: set_private_data rest g d
  end.

(** The destructor of [api_object_impl]: [assert(_private_data.empty())].
    [ndebug] tells whether assertions are compiled out. *)
Inductive outcome := Destroyed | AssertionFailed.

Definition destroy (ndebug : bool) (t : table) : outcome :=
  if ndebug then Destroyed
  else match t with [] => Destroyed | _ :: _ => AssertionFailed end.

(** A call [set_private_data(guid, data)] and a history of such calls on a
    freshly constructed object. *)
Definition call := (list byte * Z)%type.

Definition run (calls : list call) : table :=
  fold_left (fun t c => set_private_data t (fst c) (snd c)) calls [].

(** The value of the last call on [g] in a history, 0 when there is none. *)
Fixpoint last_set (calls : list call) (g : list byte) (acc : Z) : Z :=
  match calls with
  | [] => acc
  | (g', d) :: rest =>
      last_set rest g (if decide (g' = g) then d else acc)
  end.

(** Every call of a history passes a pointer to 16 readable bytes. *)
Definition valid_calls (calls : list call) : Prop :=
  Forall (fun c : call => length (fst c) = 16%nat) calls.

(** The entry that [push_back] appends for [guid] and [data]. *)
Definition new_entry (g : list byte) (d : Z) : private_data :=
  {| data := d; guid := (guid_word g 0, guid_word g 1) |}.

(** Two sample guids. *)
Definition guid_a : list byte := repeat Byte.x01 16.
Definition guid_b : list byte := Byte.x02 :: repeat Byte.x01 15.

(** At most one entry per 16-byte guid. *)
Definition unique_guids (t : table) : Prop := NoDup (map guid_bytes t).

Definition has_guid (t : table) (g : list byte) : Prop :=
  exists it, In it t /\ guid_bytes it = g.

End PrivateData.

(** ** source/addon.hpp : temp_mem *)

Module TempMem.

(** Where [p] points: at the member array [stack], or at an array of
    [size] elements obtained from [new T[size]]. *)
Inductive storage := Stack | Heap (size : nat).

(** What [operator[]] does: the assertion fails, or the element it returns
    lies inside or outside the storage [p] points at. *)
Inductive access := AssertionFailed | InBounds | OutOfBounds.

Section TempMem.

(** The template argument [STACK_ELEMENTS]. *)
Variable STACK_ELEMENTS : nat.

(** [temp_mem(size_t elements)] *)
Definition construct (elements : nat) : storage :=
  if STACK_ELEMENTS <? elements then Heap elements else Stack.

(** Number of elements of the storage [p] points at. *)
Definition capacity (p : storage) : nat :=
  match p with Stack => STACK_ELEMENTS | Heap size => size end.

Definition is_stack (p : storage) : bool :=
  match p with Stack => true | Heap _ => false end.

(** [operator[](size_t element)]:
    [assert(element < STACK_ELEMENTS || p != stack); return p[element];] *)
Definition index (ndebug : bool) (p : storage) (element : nat) : access :=
  if negb ndebug && negb ((element <? STACK_ELEMENTS) || negb (is_stack p))
  then AssertionFailed
  else if element <? capacity p then InBounds else OutOfBounds.

(** [~temp_mem()]: the number of arrays it deletes. *)
Definition destruct_deletes (p : storage) : nat :=
  if negb (is_stack p) then 1 else 0.

(** Number of arrays the constructor allocates. *)
Definition construct_allocates (elements : nat) : nat :=
  if STACK_ELEMENTS <? elements then 1 else 0.

End TempMem.

End TempMem.

(** ** Vulkan backend header : reshade::vulkan::device_impl *)

Module Device.

Local Open Scope Z_scope.

(** Outcome of a call: it returns, an [assert] fires, or the C++ behaviour
    is undefined (deleting a pointer that is not a live allocation). *)
Inductive result (A : Type) : Type :=
| Ok (a : A)
| AssertionFailed
| UndefinedBehaviour.
Arguments Ok {A} a.
Arguments AssertionFailed {A}.
Arguments UndefinedBehaviour {A}.

Definition bind {A B : Type} (r : result A) (k : A -> result B) : result B :=
  match r with
  | Ok a => k a
  | AssertionFailed => AssertionFailed
  | UndefinedBehaviour => UndefinedBehaviour
  end.

Notation "'do' x <- r ; k" := (bind r (fun x => k))
  (at level 10, x name, r at level 100, k at level 200).

Definition VK_NULL_HANDLE : Z := 0.

(** [VkRenderPassBeginInfo], the value type of [_render_pass_lookup]: the
    structural content of the begin-info and the native object built for it. *)
Record VkRenderPassBeginInfo := {
  begin_info : list Z;
  native_object : Z
}.

(** State of the Vulkan implementation under the device: the private data
    stored per (object type, object handle, private data slot), the live
    [object_data] allocations, how often each transient pool of the ring was
    reset, and the next native handle it hands out. *)
Record vk_state := {
  object_private_data : gmap (Z * Z * Z) Z;
  heap : gset Z;
  pool_generation : list nat;
  next_handle : Z
}.

(** The members of [device_impl] (and of its base [api_object_impl]). *)
Record device_impl := {
  _orig : Z;
  _physical_device : Z;
  _dispatch_table : list Z;
  _instance_dispatch_table : list Z;
  _graphics_queue_family_index : Z;
  _queues : list Z;
  _push_descriptor_ext : bool;
  _dynamic_rendering_ext : bool;
  _custom_border_color_ext : bool;
  _extended_dynamic_state_ext : bool;
  _conservative_rasterization_ext : bool;
  _enabled_features : list bool;
  _transient_descriptor_pool : list Z;
  _transient_index : Z;
  _private_data_slot : Z;
  _render_pass_lookup : gmap Z VkRenderPassBeginInfo;
  _private_data : PrivateData.table
}.

(** The members declared [const]. *)
Record constants := {
  c_physical_device : Z;
  c_dispatch_table : list Z;
  c_instance_dispatch_table : list Z;
  c_push_descriptor_ext : bool;
  c_dynamic_rendering_ext : bool;
  c_custom_border_color_ext : bool;
  c_extended_dynamic_state_ext : bool;
  c_conservative_rasterization_ext : bool;
  c_enabled_features : list bool
}.

Definition constants_of (d : device_impl) : constants :=
  {| c_physical_device := _physical_device d;
     c_dispatch_table := _dispatch_table d;
     c_instance_dispatch_table := _instance_dispatch_table d;
     c_push_descriptor_ext := _push_descriptor_ext d;
     c_dynamic_rendering_ext := _dynamic_rendering_ext d;
     c_custom_border_color_ext := _custom_border_color_ext d;
     c_extended_dynamic_state_ext := _extended_dynamic_state_ext d;
     c_conservative_rasterization_ext := _conservative_rasterization_ext d;
     c_enabled_features := _enabled_features d |}.

(** Writes to the members that are not [const]. *)
Definition with_transient_index (d : device_impl) (i : Z) : device_impl :=
  {| _orig := _orig d; _physical_device := _physical_device d;
     _dispatch_table := _dispatch_table d;
     _instance_dispatch_table := _instance_dispatch_table d;
     _graphics_queue_family_index := _graphics_queue_family_index d;
     _queues := _queues d;
     _push_descriptor_ext := _push_descriptor_ext d;
     _dynamic_rendering_ext := _dynamic_rendering_ext d;
     _custom_border_color_ext := _custom_border_color_ext d;
     _extended_dynamic_state_ext := _extended_dynamic_state_ext d;
     _conservative_rasterization_ext := _conservative_rasterization_ext d;
     _enabled_features := _enabled_features d;
     _transient_descriptor_pool := _transient_descriptor_pool d;
     _transient_index := i;
     _private_data_slot := _private_data_slot d;
     _render_pass_lookup := _render_pass_lookup d;
     _private_data := _private_data d |}.

Definition with_render_pass_lookup (d : device_impl)
    (m : gmap Z VkRenderPassBeginInfo) : device_impl :=
  {| _orig := _orig d; _physical_device := _physical_device d;
     _dispatch_table := _dispatch_table d;
     _instance_dispatch_table := _instance_dispatch_table d;
     _graphics_queue_family_index := _graphics_queue_family_index d;
     _queues := _queues d;
     _push_descriptor_ext := _push_descriptor_ext d;
     _dynamic_rendering_ext := _dynamic_rendering_ext d;
     _custom_border_color_ext := _custom_border_color_ext d;
     _extended_dynamic_state_ext := _extended_dynamic_state_ext d;
     _conservative_rasterization_ext := _conservative_rasterization_ext d;
     _enabled_features := _enabled_features d;
     _transient_descriptor_pool := _transient_descriptor_pool d;
     _transient_index := _transient_index d;
     _private_data_slot := _private_data_slot d;
     _render_pass_lookup := m;
     _private_data := _private_data d |}.

Definition with_private_data (d : device_impl) (t : PrivateData.table) : device_impl :=
  {| _orig := _orig d; _physical_device := _physical_device d;
     _dispatch_table := _dispatch_table d;
     _instance_dispatch_table := _instance_dispatch_table d;
     _graphics_queue_family_index := _graphics_queue_family_index d;
     _queues := _queues d;
     _push_descriptor_ext := _push_descriptor_ext d;
     _dynamic_rendering_ext := _dynamic_rendering_ext d;
     _custom_border_color_ext := _custom_border_color_ext d;
     _extended_dynamic_state_ext := _extended_dynamic_state_ext d;
     _conservative_rasterization_ext := _conservative_rasterization_ext d;
     _enabled_features := _enabled_features d;
     _transient_descriptor_pool := _transient_descriptor_pool d;
     _transient_index := _transient_index d;
     _private_data_slot := _private_data_slot d;
     _render_pass_lookup := _render_pass_lookup d;
     _private_data := t |}.

Definition with_object_private_data (w : vk_state) (m : gmap (Z * Z * Z) Z) : vk_state :=
  {| object_private_data := m; heap := heap w;
     pool_generation := pool_generation w; next_handle := next_handle w |}.

Definition with_heap (w : vk_state) (h : gset Z) : vk_state :=
  {| object_private_data := object_private_data w; heap := h;
     pool_generation := pool_generation w; next_handle := next_handle w |}.

Definition with_pool_generation (w : vk_state) (g : list nat) : vk_state :=
  {| object_private_data := object_private_data w; heap := heap w;
     pool_generation := g; next_handle := next_handle w |}.

Definition with_next_handle (w : vk_state) (n : Z) : vk_state :=
  {| object_private_data := object_private_data w; heap := heap w;
     pool_generation := pool_generation w; next_handle := n |}.

(** [vkSetPrivateData] and [vkGetPrivateData]; an object without data
    reads 0. *)
Definition SetPrivateData (w : vk_state) (type object slot data : Z) : vk_state :=
  with_object_private_data w (<[(type, object, slot) := data]> (object_private_data w)).

Definition GetPrivateData (w : vk_state) (type object slot : Z) : Z :=
  default 0 (object_private_data w !! (type, object, slot)).

(** [assert(c)]; [ndebug] tells whether assertions are compiled out. *)
Definition assert (ndebug c : bool) : result unit :=
  if ndebug || c then Ok tt else AssertionFailed.

(** [delete p]: nothing for the null pointer, frees a live allocation. *)
Definition operator_delete (w : vk_state) (p : Z) : result vk_state :=
  if p =? 0 then Ok w
  else if decide (p ∈ heap w) then Ok (with_heap w (heap w ∖ {[p]}))
  else UndefinedBehaviour.

Section Operations.

(** [operator new]: the address it returns for a given set of live
    allocations. *)
Variable operator_new : gset Z -> Z.

Variable ndebug : bool.

(** [register_object<type>(object, args...)] *)
Definition register_object (d : device_impl) (w : vk_state) (type object : Z)
  : result vk_state :=
  do ok <- assert ndebug (negb (object =? VK_NULL_HANDLE));
  let private_data := operator_new (heap w) in
  let w := with_heap w ({[private_data]} ∪ heap w) in
  Ok (SetPrivateData w type object (_private_data_slot d) private_data).

(** [register_object(type, object, private_data)] *)
Definition register_object_raw (d : device_impl) (w : vk_state)
    (type object private_data : Z) : vk_state :=
  SetPrivateData w type object (_private_data_slot d) private_data.

(** [unregister_object<type>(object)] *)
Definition unregister_object (d : device_impl) (w : vk_state) (type object : Z)
  : result vk_state :=
  if object =? VK_NULL_HANDLE then Ok w
  else
    let private_data := GetPrivateData w type object (_private_data_slot d) in
    do w <- operator_delete w private_data;
    Ok (SetPrivateData w type object (_private_data_slot d) 0).

(** [unregister_object(type, object)] *)
Definition unregister_object_raw (d : device_impl) (w : vk_state) (type object : Z)
  : vk_state :=
  SetPrivateData w type object (_private_data_slot d) 0.

(** [get_private_data_for_object<type>(object)] *)
Definition get_private_data_for_object (d : device_impl) (w : vk_state)
    (type object : Z) : result Z :=
  do ok <- assert ndebug (negb (object =? VK_NULL_HANDLE));
  let private_data := GetPrivateData w type object (_private_data_slot d) in
  do ok <- assert ndebug (negb (private_data =? 0));
  Ok private_data.

(** Modelled from the spec: the body of [advance_transient_descriptor_pool]
    (only declared in the header). "A fixed-size ring of N pools";
    the call "rotates the cursor to the next pool and implicitly invalidates
    all descriptor sets previously allocated from the pool now being
    reused". The ring is [_transient_descriptor_pool[4]], the cursor is
    [_transient_index]; reusing a pool is counted in its generation. *)
Definition advance_transient_descriptor_pool (d : device_impl) (w : vk_state)
  : device_impl * vk_state :=
  let next := (_transient_index d + 1) mod 4 in
  (with_transient_index d next,
   with_pool_generation w (alter S (Z.to_nat next) (pool_generation w))).

(** A descriptor set of a transient pool: the pool of the ring it was
    allocated from and the generation of that pool at allocation. *)
Record descriptor_set := { set_pool : nat; set_generation : nat }.

(** Modelled from the spec: allocation of a transient descriptor set (the
    allocating code is not part of the header). The set comes from the pool
    under the cursor, "frame-scoped lifetime, reclaimed implicitly on
    rotation". *)
Definition allocate_transient_descriptor_set (d : device_impl) (w : vk_state)
  : descriptor_set :=
  {| set_pool := Z.to_nat (_transient_index d);
     set_generation :=
       default 0%nat (pool_generation w !! Z.to_nat (_transient_index d)) |}.

(** A set is valid as long as its pool was not reused since. *)
Definition descriptor_set_valid (w : vk_state) (s : descriptor_set) : bool :=
  bool_decide (pool_generation w !! set_pool s = Some (set_generation s)).

(** The structural hash of a begin-info (its code is not part of the header). *)
Variable hash : list Z -> Z.

(** Modelled from the spec: the lookup in [_render_pass_lookup] (only the
    member is declared in the header). The begin-info is hashed
    structurally and a cached native object is reused on a hit; "hash
    collisions are resolved by structural equality check before reuse,
    never by hash alone". *)
Definition render_pass_find (d : device_impl) (info : list Z) : option Z :=
  match _render_pass_lookup d !! hash info with
  | Some stored =>
      if decide (begin_info stored = info) then Some (native_object stored)
      else None
  | None => None
  end.

(** Modelled from the spec: a miss builds the native object, and the writer
    inserts the new cache entry under the hash of the begin-info when that
    hash has no entry yet. An entry held by a structurally different
    begin-info stays where it is ("never speculatively evict entries"): the
    object built on such a miss is not cached. *)
Definition render_pass_get (d : device_impl) (w : vk_state) (info : list Z)
  : Z * (device_impl * vk_state) :=
  match render_pass_find d info with
  | Some object => (object, (d, w))
  | None =>
      let object := next_handle w in
      let w := with_next_handle w (object + 1) in
      match _render_pass_lookup d !! hash info with
      | Some _ => (object, (d, w))
      | None =>
          (object,
           (with_render_pass_lookup d
              (<[hash info := {| begin_info := info; native_object := object |}]>
                 (_render_pass_lookup d)),
            w))
      end
  end.

(** The calls on a device. *)
Inductive op :=
| RegisterObject (type object : Z)
| RegisterObjectRaw (type object private_data : Z)
| UnregisterObject (type object : Z)
| UnregisterObjectRaw (type object : Z)
| GetPrivateDataForObject (type object : Z)
| SetObjectPrivateData (guid : list byte) (data : Z)
| AdvanceTransientDescriptorPool
| AllocateTransientDescriptorSet
| RenderPassLookup (info : list Z).

Definition step (s : device_impl * vk_state) (o : op)
  : result (device_impl * vk_state) :=
  let (d, w) := s in
  match o with
  | RegisterObject type object =>
      do w <- register_object d w type object; Ok (d, w)
  | RegisterObjectRaw type object private_data =>
      Ok (d, register_object_raw d w type object private_data)
  | UnregisterObject type object =>
      do w <- unregister_object d w type object; Ok (d, w)
  | UnregisterObjectRaw type object =>
      Ok (d, unregister_object_raw d w type object)
  | GetPrivateDataForObject type object =>
      do p <- get_private_data_for_object d w type object; Ok (d, w)
  | SetObjectPrivateData guid data =>
      Ok (with_private_data d
            (PrivateData.set_private_data (_private_data d) guid data), w)
  | AdvanceTransientDescriptorPool =>
      Ok (advance_transient_descriptor_pool d w)
  | AllocateTransientDescriptorSet => Ok (d, w)
  | RenderPassLookup info => Ok (snd (render_pass_get d w info))
  end.

Fixpoint run_ops (ops : list op) (s : device_impl * vk_state)
  : result (device_impl * vk_state) :=
  match ops with
  | [] => Ok s
  | o :: rest => do s <- step s o; run_ops rest s
  end.

End Operations.

(** The object an operation registers, unregisters or looks up. *)
Definition op_object (o : op) : option (Z * Z) :=
  match o with
  | RegisterObject type object
  | RegisterObjectRaw type object _
  | UnregisterObject type object
  | UnregisterObjectRaw type object => Some (type, object)
  | _ => None
  end.

Definition is_advance (o : op) : bool :=
  match o with AdvanceTransientDescriptorPool => true | _ => false end.

(** Number of rotations in a sequence of calls. *)
Fixpoint rotations (ops : list op) : nat :=
  match ops with
  | [] => 0
  | o :: rest => (if is_advance o then 1 else 0) + rotations rest
  end.

(** The ring has its four pools and the cursor points into it. *)
Definition ring_ok (d : device_impl) (w : vk_state) : Prop :=
  length (pool_generation w) = 4%nat /\ 0 <= _transient_index d < 4.

(** [object] carries the tag [p] of a live metadata record. *)
Definition registered (d : device_impl) (w : vk_state) (type object p : Z) : Prop :=
  object <> VK_NULL_HANDLE /\
  GetPrivateData w type object (_private_data_slot d) = p /\
  p <> 0 /\ p ∈ heap w.


(** Generation of the pool at position [i] of the ring. *)
Definition gen_at (w : vk_state) (i : nat) : nat :=
  default 0%nat (pool_generation w !! i).

Definition from_ok {A : Type} (a : A) (r : result A) : A :=
  match r with Ok x => x | _ => a end.



(** Every non-null tag is a live allocation and no two objects carry the
    same one. *)
Definition tags_ok (w : vk_state) : Prop :=
  (forall (k : Z * Z * Z) (p : Z),
     object_private_data w !! k = Some p -> p <> 0 -> p ∈ heap w) /\
  (forall (k1 k2 : Z * Z * Z) (p : Z),
     object_private_data w !! k1 = Some p ->
     object_private_data w !! k2 = Some p -> p <> 0 -> k1 = k2).

(** The calls that store a pointer of the caller's as the tag. *)
Definition is_raw_register (o : op) : bool :=
  match o with RegisterObjectRaw _ _ _ => true | _ => false end.

(** An allocator and a device to run the operations on. *)
Definition fresh_address (h : gset Z) : Z := fresh ({[0]} ∪ h).

Definition sample_hash (info : list Z) : Z := Z.of_nat (length info).

Definition sample_device : device_impl :=
  {| _orig := 1; _physical_device := 2;
     _dispatch_table := [10; 11]; _instance_dispatch_table := [20];
     _graphics_queue_family_index := 4294967295; _queues := [];
     _push_descriptor_ext := true; _dynamic_rendering_ext := false;
     _custom_border_color_ext := true; _extended_dynamic_state_ext := false;
     _conservative_rasterization_ext := false;
     _enabled_features := [true; false];
     _transient_descriptor_pool := [31; 32; 33; 34];
     _transient_index := 0; _private_data_slot := 7;
     _render_pass_lookup := ∅; _private_data := [] |}.

Definition sample_vk : vk_state :=
  {| object_private_data := ∅; heap := ∅;
     pool_generation := [0; 0; 0; 0]%nat; next_handle := 1 |}.

(** [sample_vk] after the object 42 of type 3 was registered. *)
Definition sample_registered : vk_state :=
  {| object_private_data := {[ (3, 42, 7) := 1 ]}; heap := {[ 1 ]};
     pool_generation := [0; 0; 0; 0]%nat; next_handle := 1 |}.

End Device.

(** ** ini_file.cpp : ini_file::load, ini_file::save, the cache *)

Module IniFile.

(** [std::string] as its sequence of chars. *)
Abbreviation str := (list ascii).

Definition comma : ascii := ","%char.

(** [s[i]] *)
Definition char_at (s : str) (i : nat) : ascii := nth i s zero.

(** Search of [c] in [s], whose first char has index [i]. *)
Fixpoint find_from (c : ascii) (s : str) (i : nat) : option nat :=
  match s with
  | [] => None
  | x :: s' => if Ascii.eqb x c then Some i else find_from c s' (S i)
  end.

(** [s.find_first_of(c, pos)]; [None] is [std::string::npos]. *)
Definition find_first_of (s : str) (c : ascii) (pos : nat) : option nat :=
  find_from c (skipn pos s) pos.

(** [std::min(value.find_first_of(',', offset), len)] *)
Definition find_comma (value : str) (offset : nat) : nat :=
  match find_first_of value comma offset with
  | Some i => Nat.min i (length value)
  | None => length value
  end.

(** The inner loop of [load]:
    [while (base < found) { c = value[base++]; element += c;
       if (c == ',' && base < found && value[base] == ',') base++; }].
    Returns the element and the final [base]. *)
Fixpoint copy_element (fuel : nat) (value : str) (base found : nat) (element : str)
  : str * nat :=
  match fuel with
  | O => (element, base)
  | S fuel' =>
      if base <? found then
        let c := char_at value base in
        let base := S base in
        let element := element ++ [c] in
        let base :=
          if Ascii.eqb c comma && (base <? found) && Ascii.eqb (char_at value base) comma
          then S base else base in
        copy_element fuel' value base found element
      else (element, base)
  end.

(** The loop of [load] that splits a value:
    [for (size_t offset = 0, base = 0, len = value.size(); offset <= len;)].
    Every iteration moves [offset] forward, so [S len - offset] iterations
    are enough. *)
Fixpoint split_loop (fuel : nat) (value : str) (offset base : nat)
    (elements : list str) : list str :=
  let len := length value in
  if len <? offset then elements
  else
    match fuel with
    | O => elements
    | S fuel' =>
        let found := find_comma value offset in
        if (found + 1 <? len) && Ascii.eqb (char_at value (found + 1)) comma then
          split_loop fuel' value (found + 2) base elements
        else
          let element := fst (copy_element (found - base) value base found []) in
          split_loop fuel' value (found + 1) (found + 1) (elements ++ [element])
    end.

Definition split_from (value : str) (offset base : nat) (elements : list str)
  : list str :=
  split_loop (S (length value) - offset) value offset base elements.

(** The elements appended to [elements] for a non-empty [value]. *)
Definition split_value (value : str) (elements : list str) : list str :=
  split_from value 0 0 elements.

(** What [load] stores for a key that was not seen before: nothing for an
    empty value, the split value otherwise. *)
Definition load_value (value : str) : list str :=
  match value with
  | [] => []
  | _ :: _ => split_value value []
  end.

(** [for (const char c : element) value.append(c == ',' ? 2 : 1, c);] *)
Definition escape (element : str) : str :=
  flat_map (fun c => if Ascii.eqb c comma then [c; c] else [c]) element.

(** The value that [save] builds from non-empty [elements]: every element
    escaped and followed by a comma, the last comma removed. *)
Definition save_value (elements : list str) : str :=
  removelast (concat (map (fun element => escape element ++ [comma]) elements)).

(** What [save] writes after [key=]. *)
Definition save_key_value (elements : list str) : str :=
  match elements with
  | [] => []
  | _ :: _ => save_value elements
  end.

(** The escaped elements separated by single commas. *)
Fixpoint join (elements : list str) : str :=
  match elements with
  | [] => []
  | [e] => escape e
  | e :: rest => escape e ++ comma :: join rest
  end.

Definition starts_with_comma (s : str) : bool :=
  match s with
  | c :: _ => Ascii.eqb c comma
  | [] => false
  end.

Definition is_empty {A : Type} (s : list A) : bool :=
  match s with [] => true | _ :: _ => false end.

(** Elements after the first: none begins with a comma and only the last
    may be empty. *)
Fixpoint tail_ok (rest : list str) : bool :=
  match rest with
  | [] => true
  | e :: rest' =>
      negb (starts_with_comma e) && (negb (is_empty e) || is_empty rest')
      && tail_ok rest'
  end.

(** The lists of elements that [save] and [load] carry through unchanged. *)
Definition roundtrip_ok (elements : list str) : bool :=
  match elements with
  | [] => true
  | [e] => negb (is_empty e)
  | _ :: rest => tail_ok rest
  end.

(** The splitting of a value read off its characters from left to right:
    [cur] is the element being read; a comma followed by a comma is one
    comma of the element, any other comma ends the element. *)
Fixpoint split_spec (s : str) (cur : str) : list str :=
  match s with
  | [] => [cur]
  | c :: s' =>
      if Ascii.eqb c comma then
        match s' with
        | c' :: s'' =>
            if Ascii.eqb c' comma then split_spec s'' (cur ++ [comma])
            else cur :: split_spec s' []
        | [] => cur :: split_spec s' []
        end
      else split_spec s' (cur ++ [c])
  end.

Definition is_comma (c : ascii) : bool := Ascii.eqb c comma.



(** The members of [ini_file]; times are ticks of the file clock. *)
Record ini_file := {
  _path : str;
  _modified : bool;
  _modified_at : Z;
  _sections : gmap str (gmap str (list str))
}.

Definition with_modified (f : ini_file) (b : bool) : ini_file :=
  {| _path := _path f; _modified := b; _modified_at := _modified_at f;
     _sections := _sections f |}.

Definition with_modified_at (f : ini_file) (t : Z) : ini_file :=
  {| _path := _path f; _modified := _modified f; _modified_at := t;
     _sections := _sections f |}.

(** The file at [_path] as the calls of [save] see it: its last write time
    ([None] when [std::filesystem::last_write_time] reports an error, as for
    a missing file), its contents, whether [std::ofstream] can open it, and
    the time stamp the next write gives it. *)
Record file_state := {
  last_write_time : option Z;
  contents : str;
  writable : bool;
  next_write_time : Z
}.

(** What a call of [save] ends in. *)
Inductive save_outcome := Returned (b : bool) | SaveAssertionFailed.

Definition newline : ascii := "010"%char.

Section Save.

(** Assertions compiled out or not. *)
Variable ndebug : bool.

(** [std::sort] with the comparison of the upper-cased names; names that
    differ in case only compare equal, the order it leaves them in is not
    specified. *)
Variable sort : list str -> list str.

(** The text [save] builds in [data]. *)
Definition serialize (sections : gmap str (gmap str (list str))) : str :=
  flat_map
    (fun section_name : str =>
       let keys := default ∅ (sections !! section_name) in
       (if is_empty section_name then []
        else "["%char :: section_name ++ ["]"%char; newline])
       ++ flat_map
            (fun key_name : str =>
               key_name ++ "="%char
                 :: save_key_value (default [] (keys !! key_name)) ++ [newline])
            (sort (map fst (map_to_list keys)))
       ++ [newline])
    (sort (map fst (map_to_list sections))).

(** [ini_file::save] *)
Definition save (f : ini_file) (fs : file_state)
  : save_outcome * ini_file * file_state :=
  if negb (_modified f) then (Returned true, f, fs)
  else
    let f := with_modified f false in
    if match last_write_time fs with
       | Some modified_at => (_modified_at f <? modified_at)%Z
       | None => false
       end
    then (Returned false, f, fs)
    else
      let data := serialize (_sections f) in
      if negb (writable fs) then (Returned false, f, fs)
      else
        let fs := {| last_write_time := Some (next_write_time fs);
                     contents := data; writable := writable fs;
                     next_write_time := next_write_time fs |} in
        let f := with_modified_at f (next_write_time fs) in
        if ndebug || (0 <? length data) then (Returned true, f, fs)
        else (SaveAssertionFailed, f, fs).

(** Ticks of the file clock in [std::chrono::seconds(1)]. *)
Variable one_second : Z.

(** The body of the loop of [ini_file::flush_cache()] for one cached file
    and the file at its path: the outcome of the save it makes, if any. *)
Definition flush_entry (now : Z) (f : ini_file) (fs : file_state)
  : save_outcome * ini_file * file_state :=
  if _modified f && (one_second <? now - _modified_at f)%Z then save f fs
  else (Returned true, f, fs).

End Save.

Definition with_sections (f : ini_file) (m : gmap str (gmap str (list str))) : ini_file :=
  {| _path := _path f; _modified := _modified f; _modified_at := _modified_at f;
     _sections := m |}.

Definition with_contents (fs : file_state) (text : str) : file_state :=
  {| last_write_time := last_write_time fs; contents := text;
     writable := writable fs; next_write_time := next_write_time fs |}.

(** The three bytes of the UTF-8 byte order mark. *)
Definition bom : str := ["239"%char; "187"%char; "191"%char].

(** [if (file.get() != 0xef || file.get() != 0xbb || file.get() != 0xbf)
      file.seekg(0, std::ios::beg);]
    The text that remains to be read. A [get()] that meets the end of the
    file sets [failbit], after which neither [seekg] nor [getline] does
    anything: no text remains. *)
Definition skip_bom (text : str) : str :=
  match text with
  | [] => []
  | c1 :: t1 =>
      if negb (Ascii.eqb c1 "239"%char) then text
      else
        match t1 with
        | [] => []
        | c2 :: t2 =>
            if negb (Ascii.eqb c2 "187"%char) then text
            else
              match t2 with
              | [] => []
              | c3 :: t3 => if negb (Ascii.eqb c3 "191"%char) then text else t3
              end
        end
  end.

(** The lines that [while (std::getline(file, line))] goes through: the
    text cut at every newline; [line] holds the chars of the line being
    read. Nothing is read after a last newline. *)
Fixpoint getlines (text : str) (line : str) : list str :=
  match text with
  | [] => match line with [] => [] | _ :: _ => [line] end
  | c :: text' =>
      if Ascii.eqb c newline then line :: getlines text' []
      else getlines text' (line ++ [c])
  end.

(** [s.substr(pos, n)]; [None] for [npos]. *)
Definition substr (s : str) (pos : nat) (n : option nat) : str :=
  match n with
  | Some n => firstn n (skipn pos s)
  | None => skipn pos s
  end.

(** [_sections[section].insert({ key, {} })]: the section is created when
    missing, the key is added without elements unless it is there already. *)
Definition insert_key (sections : gmap str (gmap str (list str)))
    (section key : str) : gmap str (gmap str (list str)) :=
  let keys := default ∅ (sections !! section) in
  <[section := match keys !! key with
               | Some _ => keys
               | None => <[key := []]> keys
               end]> sections.

(** [ini_file::value &elements = _sections[section][key];] followed by the
    splitting loop, which appends to [elements]. *)
Definition append_value (sections : gmap str (gmap str (list str)))
    (section key value : str) : gmap str (gmap str (list str)) :=
  let keys := default ∅ (sections !! section) in
  let elements := default [] (keys !! key) in
  <[section := <[key := split_value value elements]> keys]> sections.

Section Load.

(** [trim(str, chars)] of ini_file.hpp, which is not part of ini_file.cpp:
    the string without the given chars at its two ends. *)
Variable trim : str -> str -> str.

(** [std::filesystem::file_time_type::min()], the time that
    [last_write_time] returns along with an error. *)
Variable file_time_min : Z.

Definition whitespace : str := [" "%char; "009"%char].

Definition section_chars : str := [" "%char; "009"%char; "["%char; "]"%char].

(** The body of the loop over the lines; the state is the current section
    name and [_sections]. *)
Definition load_line (st : str * gmap str (gmap str (list str))) (line : str)
  : str * gmap str (gmap str (list str)) :=
  let (section, sections) := st in
  let line := trim line whitespace in
  match line with
  | [] => st
  | c :: _ =>
      if Ascii.eqb c ";"%char || Ascii.eqb c "/"%char || Ascii.eqb c "#"%char then st
      else if Ascii.eqb c "["%char then
        (trim (substr line 0 (find_first_of line "]"%char 0)) section_chars, sections)
      else
        match find_first_of line "="%char 0 with
        | Some assign_index =>
            let key := trim (substr line 0 (Some assign_index)) whitespace in
            let value := trim (substr line (assign_index + 1) None) whitespace in
            match value with
            | [] => (section, insert_key sections section key)
            | _ :: _ => (section, append_value sections section key value)
            end
        | None => (section, insert_key sections section line)
        end
  end.

(** [ini_file::load]; [can_open] tells whether [std::ifstream] opens the
    file. *)
Definition load (can_open : bool) (f : ini_file) (fs : file_state) : ini_file :=
  let modified_at := default file_time_min (last_write_time fs) in
  if match last_write_time fs with
     | Some _ => (modified_at <=? _modified_at f)%Z
     | None => false
     end
  then f
  else
    let f := with_sections f ∅ in
    if negb can_open then f
    else
      let f := with_modified_at (with_modified f false) modified_at in
      with_sections f
        (snd (fold_left load_line (getlines (skip_bom (contents fs)) []) ([], ∅))).

End Load.

(** [m'] has every key of [m], with the elements of [m] followed by
    further ones. *)
Definition extends (m m' : gmap str (gmap str (list str))) : Prop :=
  forall (section key : str) (keys : gmap str (list str)) (elements : list str),
    m !! section = Some keys -> keys !! key = Some elements ->
    exists (keys' : gmap str (list str)) (more : list str),
      m' !! section = Some keys' /\ keys' !! key = Some (elements ++ more).

(** A [trim] to run [load] with: it removes nothing. *)
Definition no_trim (s chars : str) : str := s.

Definition sample_ini : ini_file :=
  {| _path := ["x"%char]; _modified := true; _modified_at := 5; _sections := ∅ |}.

Definition sample_file : file_state :=
  {| last_write_time := Some 9%Z; contents := []; writable := true;
     next_write_time := 12 |}.

(** A file on disk that is older than [sample_ini]. *)
Definition sample_file_old : file_state :=
  {| last_write_time := Some 3%Z; contents := ["o"%char]; writable := true;
     next_write_time := 12 |}.

(** A file with one section and one key. *)
Definition sample_sections : gmap str (gmap str (list str)) :=
  {[ ["S"%char] := {[ ["k"%char] := [["v"%char]] ]} ]}.

Definition sample_ini_saved : ini_file :=
  {| _path := ["x"%char]; _modified := true; _modified_at := 9;
     _sections := sample_sections |}.

(** Sample elements. *)
Definition elem_a : str := ["a"%char].
Definition elem_comma_b : str := [","%char; "b"%char].
Definition elem_a_comma : str := ["a"%char; ","%char].
Definition elem_b : str := ["b"%char].

End IniFile.


Module PrivateDataFacts.
Import PrivateData.
Local Open Scope Z_scope.

Lemma memcmp_zero_iff (n : nat) : forall a b : list byte,
  length a = n -> length b = n -> (memcmp a b n = 0 <-> a = b).
Proof.
  induction n as [|n IH]; intros [|x a] [|y b] Ha Hb; simpl in *; try discriminate.
  - tauto.
  - destruct (Z.eqb_spec (byte.unsigned x) (byte.unsigned y)) as [e|ne].
    + apply byte.unsigned_inj in e. subst y.
      rewrite (IH a b) by lia. split; [intros ->; reflexivity | intros [=]; assumption].
    + split; [lia | intros [= -> _]; contradiction].
Qed.

Lemma guid_bytes_length (it : private_data) : length (guid_bytes it) = 16%nat.
Proof. unfold guid_bytes. rewrite length_app, !length_le_split. reflexivity. Qed.

Lemma guid_matches (it : private_data) (g : list byte) :
  length g = 16%nat ->
  (memcmp (guid_bytes it) g 16 =? 0) = true <-> guid_bytes it = g.
Proof.
  intros Hg. rewrite Z.eqb_eq. apply memcmp_zero_iff; [apply guid_bytes_length | exact Hg].
Qed.

Lemma guid_bytes_of_words (g : list byte) (d : Z) :
  length g = 16%nat ->
  guid_bytes {| data := d; guid := (guid_word g 0, guid_word g 1) |} = g.
Proof.
  intros Hg. unfold guid_bytes, guid_word. simpl fst. simpl snd.
  change (8 * 0)%nat with 0%nat. change (8 * 1)%nat with 8%nat.
  assert (H1 : length (firstn 8 (skipn 0 g)) = 8%nat)
    by (rewrite length_firstn, length_skipn; lia).
  assert (H2 : length (firstn 8 (skipn 8 g)) = 8%nat)
    by (rewrite length_firstn, length_skipn; lia).
  pose proof (split_le_combine (firstn 8 (skipn 0 g))) as S1. rewrite H1 in S1.
  pose proof (split_le_combine (firstn 8 (skipn 8 g))) as S2. rewrite H2 in S2.
  rewrite S1, S2.
  rewrite (firstn_all2 (n := 8) (skipn 8 g)) by (rewrite length_skipn; lia).
  change (skipn 0 g) with g. apply firstn_skipn.
Qed.

(** What [set_private_data] does, by the position of the first entry whose
    guid compares equal. *)
Inductive set_shape (t : table) (g : list byte) (d : Z) (r : table) : Prop :=
| shape_found (t1 t2 : table) (it : private_data) :
    t = t1 ++ it :: t2 ->
    guid_bytes it = g ->
    Forall (fun x => guid_bytes x <> g) t1 ->
    r = (if d =? 0 then t1 ++ t2
         else t1 ++ {| data := d; guid := guid it |} :: t2) ->
    set_shape t g d r
| shape_absent :
    Forall (fun x => guid_bytes x <> g) t ->
    r = (if d =? 0 then t
         else t ++ [ {| data := d; guid := (guid_word g 0, guid_word g 1) |} ]) ->
    set_shape t g d r.

Lemma set_private_data_shape (t : table) (g : list byte) (d : Z) :
  length g = 16%nat -> set_shape t g d (set_private_data t g d).
Proof.
  intros Hg. induction t as [|it rest IH]; cbn [set_private_data].
  - apply shape_absent; [constructor|]. destruct (d =? 0); reflexivity.
  - destruct (memcmp (guid_bytes it) g 16 =? 0) eqn:E.
    + apply guid_matches in E; [|exact Hg].
      apply (shape_found _ g d _ [] rest it); [reflexivity | exact E | constructor |].
      destruct (d =? 0); reflexivity.
    + assert (Hne : guid_bytes it <> g).
      { intros Heq. apply (guid_matches it g Hg) in Heq. congruence. }
      destruct IH as [t1 t2 it' Ht Hit Hpre Hr | Habs Hr]; rewrite Hr.
      * apply (shape_found _ g d _ (it :: t1) t2 it');
          [rewrite Ht; reflexivity | exact Hit | constructor; assumption |].
        destruct (d =? 0); reflexivity.
      * apply shape_absent; [constructor; assumption|].
        destruct (d =? 0); reflexivity.
Qed.

Lemma get_skip (t1 t2 : table) (g : list byte) :
  length g = 16%nat ->
  Forall (fun x => guid_bytes x <> g) t1 ->
  get_private_data (t1 ++ t2) g = get_private_data t2 g.
Proof.
  intros Hg H. induction H as [|x t1 Hx _ IH]; cbn [app get_private_data]; [reflexivity|].
  destruct (memcmp (guid_bytes x) g 16 =? 0) eqn:E; [|exact IH].
  apply guid_matches in E; [contradiction | exact Hg].
Qed.

Lemma get_head (it : private_data) (t : table) (g : list byte) :
  length g = 16%nat -> guid_bytes it = g ->
  get_private_data (it :: t) g = data it.
Proof.
  intros Hg Hit. cbn [get_private_data].
  destruct (memcmp (guid_bytes it) g 16 =? 0) eqn:E; [reflexivity|].
  apply (guid_matches it g Hg) in Hit. congruence.
Qed.

Lemma get_absent (t : table) (g : list byte) :
  length g = 16%nat ->
  Forall (fun x => guid_bytes x <> g) t -> get_private_data t g = 0.
Proof.
  intros Hg H. rewrite <- (app_nil_r t). rewrite get_skip by assumption. reflexivity.
Qed.

Lemma absent_iff (t : table) (g : list byte) :
  Forall (fun x => guid_bytes x <> g) t <-> ~ has_guid t g.
Proof.
  unfold has_guid. rewrite List.Forall_forall. split.
  - intros H (it & Hin & Heq). exact (H it Hin Heq).
  - intros H it Hin Heq. apply H. exists it. split; assumption.
Qed.


Lemma get_set_same_nonzero (t : table) (g : list byte) (d : Z) :
  length g = 16%nat -> d <> 0 ->
  get_private_data (set_private_data t g d) g = d.
Proof.
  intros Hg Hd. apply Z.eqb_neq in Hd.
  destruct (set_private_data_shape t g d Hg) as [t1 t2 it _ Hit Hpre -> | Habs ->];
    rewrite Hd, get_skip by assumption.
  - apply (get_head {| data := d; guid := guid it |}); assumption.
  - apply get_head; [assumption | apply guid_bytes_of_words; assumption].
Qed.

Lemma get_set_other (t : table) (g g' : list byte) (d : Z) :
  length g = 16%nat -> length g' = 16%nat -> g' <> g ->
  get_private_data (set_private_data t g d) g' = get_private_data t g'.
Proof.
  intros Hg Hg' Hne. induction t as [|it rest IH]; cbn [set_private_data].
  - destruct (d =? 0); cbn [negb get_private_data]; [reflexivity|].
    destruct (memcmp _ g' 16 =? 0) eqn:E; [|reflexivity].
    apply guid_matches in E; [|exact Hg'].
    rewrite guid_bytes_of_words in E by exact Hg. congruence.
  - destruct (memcmp (guid_bytes it) g 16 =? 0) eqn:E.
    + apply guid_matches in E; [|exact Hg].
      assert (E' : (memcmp (guid_bytes it) g' 16 =? 0) = false).
      { destruct (memcmp (guid_bytes it) g' 16 =? 0) eqn:E'; [|reflexivity].
        apply guid_matches in E'; [congruence | exact Hg']. }
      destruct (d =? 0); cbn [negb get_private_data].
      * rewrite E'. reflexivity.
      * change (guid_bytes {| data := d; guid := guid it |}) with (guid_bytes it).
        rewrite E'. reflexivity.
    + cbn [get_private_data]. rewrite IH. reflexivity.
Qed.

Lemma unique_split (t1 t2 : table) (it : private_data) :
  unique_guids (t1 ++ it :: t2) ->
  Forall (fun x => guid_bytes x <> guid_bytes it) t2.
Proof.
  unfold unique_guids. rewrite map_app. cbn [map].
  intros H. apply NoDup_app in H as (_ & _ & H). apply NoDup_cons in H as [H _].
  apply List.Forall_forall. intros x Hx Heq. apply H. rewrite <- Heq.
  apply list_elem_of_In, in_map, Hx.
Qed.

Lemma unique_set (t : table) (g : list byte) (d : Z) :
  length g = 16%nat -> unique_guids t -> unique_guids (set_private_data t g d).
Proof.
  intros Hg Hu.
  destruct (set_private_data_shape t g d Hg) as [t1 t2 it -> Hit Hpre -> | Habs ->].
  - destruct (d =? 0).
    + unfold unique_guids in *. rewrite map_app in *. cbn [map] in Hu.
      apply NoDup_app in Hu as (H1 & H2 & H3). apply NoDup_cons in H3 as [_ H3].
      apply NoDup_app. split; [exact H1|]. split; [|exact H3].
      intros x Hx Hx2. apply (H2 x Hx). right. exact Hx2.
    + unfold unique_guids in *. rewrite map_app in *. exact Hu.
  - destruct (d =? 0); [exact Hu|].
    unfold unique_guids in *. rewrite map_app. cbn [map].
    rewrite guid_bytes_of_words by exact Hg.
    apply NoDup_app. split; [exact Hu|]. split; [|apply NoDup_singleton].
    intros x Hx Hx2. apply list_elem_of_singleton in Hx2. subst x.
    apply list_elem_of_In, in_map_iff in Hx as (it & Heq & Hin).
    rewrite List.Forall_forall in Habs. exact (Habs it Hin Heq).
Qed.

Lemma absent_after_erase (t : table) (g : list byte) :
  length g = 16%nat -> unique_guids t ->
  Forall (fun x => guid_bytes x <> g) (set_private_data t g 0).
Proof.
  intros Hg Hu.
  destruct (set_private_data_shape t g 0 Hg) as [t1 t2 it -> Hit Hpre -> | Habs ->];
    cbn [Z.eqb]; [|exact Habs].
  apply Forall_app. split; [exact Hpre|]. subst g. apply (unique_split t1 t2 it Hu).
Qed.

Lemma get_set_same (t : table) (g : list byte) (d : Z) :
  length g = 16%nat -> unique_guids t ->
  get_private_data (set_private_data t g d) g = d.
Proof.
  intros Hg Hu. destruct (Z.eq_dec d 0) as [->|Hd].
  - apply get_absent; [exact Hg | apply absent_after_erase; assumption].
  - apply get_set_same_nonzero; assumption.
Qed.

Lemma unique_fold (calls : list call) : forall t : table,
  valid_calls calls -> unique_guids t ->
  unique_guids
    (fold_left (fun t c => set_private_data t (fst c) (snd c)) calls t).
Proof.
  induction calls as [|[g d] calls IH]; intros t Hv Hu; cbn [fold_left]; [exact Hu|].
  apply Forall_cons in Hv as [Hg Hv]. apply IH; [exact Hv|].
  apply unique_set; assumption.
Qed.

Lemma unique_run (calls : list call) : valid_calls calls -> unique_guids (run calls).
Proof. intros Hv. apply unique_fold; [exact Hv | apply NoDup_nil_2]. Qed.

Lemma get_fold (calls : list call) (g : list byte) : forall t : table,
  valid_calls calls -> length g = 16%nat -> unique_guids t ->
  get_private_data
    (fold_left (fun t c => set_private_data t (fst c) (snd c)) calls t) g
  = last_set calls g (get_private_data t g).
Proof.
  induction calls as [|[g' d] calls IH]; intros t Hv Hg Hu;
    cbn [fold_left last_set fst snd]; [reflexivity|].
  apply Forall_cons in Hv as [Hg' Hv]. cbn [fst] in Hg'.
  rewrite IH by (try apply unique_set; assumption). f_equal.
  destruct (decide (g' = g)) as [->|Hne].
  - apply get_set_same; assumption.
  - apply get_set_other; [assumption .. | congruence].
Qed.


(** C1: on every object (the table reached by any history of calls) and for
    every 16-byte guid: a non-zero value written is read back, writing 0
    removes the entry, a guid without an entry reads 0 (so the read is the
    value of the last call on that guid, or 0), and a call leaves what the
    other guids read unchanged. *)
Theorem private_data_round_trip (calls : list call) (g : list byte) (v : Z) :
  valid_calls calls -> length g = 16%nat ->
  (v <> 0 -> get_private_data (set_private_data (run calls) g v) g = v) /\
  (~ has_guid (set_private_data (run calls) g 0) g /\
   get_private_data (set_private_data (run calls) g 0) g = 0) /\
  (~ has_guid (run calls) g -> get_private_data (run calls) g = 0) /\
  get_private_data (run calls) g = last_set calls g 0 /\
  (forall (g' : list byte) (w : Z), length g' = 16%nat -> g' <> g ->
     get_private_data (set_private_data (run calls) g w) g'
     = get_private_data (run calls) g').
Proof.
  intros Hv Hg. pose proof (unique_run calls Hv) as Hu.
  split; [intros Hnz; apply get_set_same_nonzero; assumption|].
  split; [split|].
  - apply absent_iff, absent_after_erase; assumption.
  - apply get_set_same; assumption.
  - split; [intros Hn; apply get_absent; [assumption | apply absent_iff, Hn]|].
    split.
    + unfold run. rewrite (get_fold calls g []) by (try apply NoDup_nil_2; assumption).
      reflexivity.
    + intros g' w Hg' Hne. apply get_set_other; assumption.
Qed.

Lemma private_data_round_trip_witness :
  get_private_data (set_private_data (run [(guid_a, 5)]) guid_b 7) guid_b = 7.
Proof.
  apply (private_data_round_trip [(guid_a, 5)] guid_b 7).
  - repeat constructor.
  - reflexivity.
  - discriminate.
Defined.

Lemma read_of_entry (t : table) (g : list byte) (it : private_data) :
  length g = 16%nat -> unique_guids t -> In it t -> guid_bytes it = g ->
  get_private_data t g = data it.
Proof.
  intros Hg Hu Hin Hit. apply in_split in Hin as (t1 & t2 & ->).
  assert (H1 : Forall (fun x => guid_bytes x <> g) t1).
  { unfold unique_guids in Hu. rewrite map_app in Hu. cbn [map] in Hu.
    apply NoDup_app in Hu as (_ & Hd & _).
    apply List.Forall_forall. intros x Hx Heq. apply (Hd (guid_bytes x)).
    - apply list_elem_of_In, in_map, Hx.
    - rewrite Heq, <- Hit. left.
  }
  rewrite get_skip by assumption. apply get_head; assumption.
Qed.

(** C10: the table of every object holds at most one entry per 16-byte
    guid, before and after every call. A call on a guid that has an entry
    finds that one entry [it] and either writes the new data into it, in
    place and keeping its guid (data not 0), or erases it (data 0), all
    other entries staying as they are and in their order; a call on a guid
    without an entry appends one (data not 0) or does nothing (data 0). The
    value read for a guid is the data of its one entry, and after a call it
    is the data just set. *)
Theorem private_data_one_entry_per_guid (calls : list call) (g : list byte) (d : Z) :
  valid_calls calls -> length g = 16%nat ->
  unique_guids (run calls) /\
  unique_guids (set_private_data (run calls) g d) /\
  (has_guid (run calls) g ->
     exists (t1 t2 : table) (it : private_data),
       run calls = t1 ++ it :: t2 /\ guid_bytes it = g /\
       ~ has_guid t1 g /\ ~ has_guid t2 g /\
       set_private_data (run calls) g d
       = if d =? 0 then t1 ++ t2
         else t1 ++ {| data := d; guid := guid it |} :: t2) /\
  (~ has_guid (run calls) g ->
     set_private_data (run calls) g d
     = if d =? 0 then run calls else run calls ++ [new_entry g d]) /\
  (forall it : private_data, In it (run calls) -> guid_bytes it = g ->
     get_private_data (run calls) g = data it) /\
  get_private_data (set_private_data (run calls) g d) g = d.
Proof.
  intros Hv Hg. pose proof (unique_run calls Hv) as Hu.
  split; [exact Hu|]. split; [apply unique_set; assumption|].
  split; [|split; [|split]].
  - intros Hhas.
    destruct (set_private_data_shape (run calls) g d Hg)
      as [t1 t2 it Ht Hit Hpre Hr | Habs Hr].
    + exists t1, t2, it. split; [exact Ht|]. split; [exact Hit|].
      split; [apply absent_iff; exact Hpre|]. split; [|exact Hr].
      apply absent_iff. subst g. apply (unique_split t1 t2 it). rewrite <- Ht. exact Hu.
    + apply absent_iff in Habs. contradiction.
  - intros Hn.
    destruct (set_private_data_shape (run calls) g d Hg)
      as [t1 t2 it Ht Hit Hpre Hr | Habs Hr]; [|exact Hr].
    exfalso. apply Hn. exists it. split; [|exact Hit].
    rewrite Ht. apply in_or_app. right. left. reflexivity.
  - intros it Hin Hit. apply read_of_entry; assumption.
  - apply get_set_same; assumption.
Qed.

Lemma private_data_one_entry_per_guid_witness :
  unique_guids (set_private_data (run [(guid_a, 5); (guid_b, 6)]) guid_a 9).
Proof.
  apply (private_data_one_entry_per_guid [(guid_a, 5); (guid_b, 6)] guid_a 9).
  - repeat constructor.
  - reflexivity.
Defined.

(** C6: with assertions compiled in, destroying an object ends in the
    assertion failure exactly when its private data table is not empty;
    only a drained table lets the destructor complete. *)
Theorem destroy_requires_empty_table (ndebug : bool) (t : table) :
  (destroy ndebug t = AssertionFailed <-> ndebug = false /\ t <> []) /\
  (destroy false t = Destroyed <-> t = []).
Proof.
  unfold destroy. destruct ndebug, t as [|it rest]; repeat split;
    try congruence; try discriminate; intros [? ?]; congruence.
Qed.

(** No entry of a reachable table stores the value 0. *)
Lemma data_nonzero_set (t : table) (g : list byte) (d : Z) :
  length g = 16%nat ->
  Forall (fun it => data it <> 0) t ->
  Forall (fun it => data it <> 0) (set_private_data t g d).
Proof.
  intros Hg Hall.
  destruct (set_private_data_shape t g d Hg) as [t1 t2 it -> Hit Hpre -> | Habs ->].
  - apply Forall_app in Hall as [H1 H2]. apply Forall_cons in H2 as [_ H2].
    destruct (Z.eqb_spec d 0) as [|Hd]; apply Forall_app; split; try assumption.
    constructor; [exact Hd | exact H2].
  - destruct (Z.eqb_spec d 0) as [|Hd]; [exact Hall|].
    apply Forall_app. split; [exact Hall|]. constructor; [exact Hd | constructor].
Qed.

Lemma data_nonzero_fold (calls : list call) : forall t : table,
  valid_calls calls ->
  Forall (fun it => data it <> 0) t ->
  Forall (fun it => data it <> 0)
    (fold_left (fun t c => set_private_data t (fst c) (snd c)) calls t).
Proof.
  induction calls as [|[g d] calls IH]; intros t Hv Hall; cbn [fold_left]; [exact Hall|].
  apply Forall_cons in Hv as [Hg Hv]. apply IH; [exact Hv|].
  apply data_nonzero_set; assumption.
Qed.

Lemma get_nonzero_has_guid (t : table) (g : list byte) :
  length g = 16%nat -> get_private_data t g <> 0 -> has_guid t g.
Proof.
  intros Hg. induction t as [|it rest IH]; cbn [get_private_data]; [congruence|].
  destruct (memcmp (guid_bytes it) g 16 =? 0) eqn:E.
  - intros _. apply guid_matches in E; [|exact Hg]. exists it. split; [left; reflexivity | exact E].
  - intros H. destruct (IH H) as (it' & Hin & Heq). exists it'. split; [right; exact Hin | exact Heq].
Qed.

Lemma data_nonzero_run (calls : list call) :
  valid_calls calls -> Forall (fun it => data it <> 0) (run calls).
Proof. intros Hv. apply data_nonzero_fold; [exact Hv | constructor]. Qed.

Lemma get_run (calls : list call) (g : list byte) :
  valid_calls calls -> length g = 16%nat ->
  get_private_data (run calls) g = last_set calls g 0.
Proof.
  intros Hv Hg. unfold run.
  rewrite (get_fold calls g []) by (try apply NoDup_nil_2; assumption). reflexivity.
Qed.

Lemma has_guid_iff_read (calls : list call) (g : list byte) :
  valid_calls calls -> length g = 16%nat ->
  has_guid (run calls) g <-> get_private_data (run calls) g <> 0.
Proof.
  intros Hv Hg. split.
  - intros (it & Hin & Hit).
    rewrite (read_of_entry (run calls) g it Hg (unique_run calls Hv) Hin Hit).
    pose proof (data_nonzero_run calls Hv) as Hnz.
    rewrite List.Forall_forall in Hnz. exact (Hnz it Hin).
  - apply get_nonzero_has_guid. exact Hg.
Qed.

(** X1: The entries of the table of an object are exactly the guids whose
    current value (the last one set) is not 0, and no entry stores 0. *)
Theorem entries_are_nonzero_values (calls : list call) (g : list byte) :
  valid_calls calls -> length g = 16%nat ->
  (has_guid (run calls) g <-> last_set calls g 0 <> 0) /\
  Forall (fun it => data it <> 0) (run calls).
Proof.
  intros Hv Hg. split; [|apply data_nonzero_run; exact Hv].
  rewrite <- (get_run calls g Hv Hg). apply has_guid_iff_read; assumption.
Qed.

Lemma entries_are_nonzero_values_witness :
  has_guid (run [(guid_a, 5); (guid_b, 6); (guid_a, 0)]) guid_b <->
  last_set [(guid_a, 5); (guid_b, 6); (guid_a, 0)] guid_b 0 <> 0.
Proof.
  apply (entries_are_nonzero_values [(guid_a, 5); (guid_b, 6); (guid_a, 0)] guid_b).
  - repeat constructor.
  - reflexivity.
Defined.

(** X2: With assertions compiled in, the destructor completes exactly when
    every guid reads 0, that is when every value that was set has been set
    back to 0. *)
Theorem destructor_passes_iff_drained (calls : list call) :
  valid_calls calls ->
  destroy false (run calls) = Destroyed <->
  forall g : list byte, length g = 16%nat -> last_set calls g 0 = 0.
Proof.
  intros Hv. split.
  - intros Hd g Hg. rewrite <- (get_run calls g Hv Hg).
    destruct (run calls); [reflexivity | discriminate].
  - intros Hall. destruct (run calls) as [|it rest] eqn:E; [reflexivity|]. exfalso.
    pose proof (has_guid_iff_read calls (guid_bytes it) Hv (guid_bytes_length it)) as [H _].
    apply H.
    + rewrite E. exists it. split; [left; reflexivity | reflexivity].
    + rewrite (get_run calls _ Hv (guid_bytes_length it)). apply Hall, guid_bytes_length.
Qed.

Lemma destructor_passes_iff_drained_witness :
  destroy false (run [(guid_a, 5); (guid_a, 0)]) = Destroyed <->
  forall g : list byte, length g = 16%nat ->
    last_set [(guid_a, 5); (guid_a, 0)] g 0 = 0.
Proof.
  apply (destructor_passes_iff_drained [(guid_a, 5); (guid_a, 0)]).
  repeat constructor.
Defined.

End PrivateDataFacts.

Module TempMemFacts.
Import TempMem.

(** X3: Every element below the requested size is inside the storage and
    passes the assertion of [operator[]], whatever the size and whether
    assertions are compiled in or not. *)
Theorem index_below_size_in_bounds (stack_elements elements i : nat) (ndebug : bool) :
  i < elements ->
  index stack_elements ndebug (construct stack_elements elements) i = InBounds.
Proof.
  intros Hi. unfold index, construct.
  destruct (Nat.ltb_spec stack_elements elements) as [Hbig|Hsmall]; cbn [is_stack capacity negb].
  - rewrite orb_true_r, andb_false_r.
    destruct (Nat.ltb_spec i elements); [reflexivity | lia].
  - destruct (Nat.ltb_spec i stack_elements); [|lia].
    cbn [orb negb]. rewrite andb_false_r. reflexivity.
Qed.

Lemma index_below_size_in_bounds_witness :
  index 16 false (construct 16 40) 39 = InBounds.
Proof. apply (index_below_size_in_bounds 16 40 39 false). lia. Defined.

(** X4: With assertions compiled in, the assertion of [operator[]] guards only
    the member array: for a size up to [STACK_ELEMENTS] every index below
    [STACK_ELEMENTS] is accepted (also at or beyond the requested size) and
    every other index fails the assertion; for a larger size no index ever
    fails the assertion, and an index at or beyond the size is returned out
    of bounds. The destructor deletes an array exactly when the constructor
    allocated one. *)
Theorem index_assertion_guards_stack_only (stack_elements elements i : nat) :
  index stack_elements false (construct stack_elements elements) i
  = (if elements <=? stack_elements
     then if i <? stack_elements then InBounds else AssertionFailed
     else if i <? elements then InBounds else OutOfBounds) /\
  destruct_deletes (construct stack_elements elements)
  = construct_allocates stack_elements elements.
Proof.
  unfold index, construct, destruct_deletes, construct_allocates.
  destruct (Nat.ltb_spec stack_elements elements) as [Hbig|Hsmall];
    cbn [is_stack capacity negb]; (split; [|reflexivity]).
  - destruct (Nat.leb_spec elements stack_elements); [lia|].
    rewrite orb_true_r. reflexivity.
  - destruct (Nat.leb_spec elements stack_elements); [|lia].
    destruct (i <? stack_elements); reflexivity.
Qed.

End TempMemFacts.


Module DeviceFacts.
Import Device.
Local Open Scope Z_scope.

Lemma get_set_private_data_eq (w : vk_state) (type object slot data : Z) :
  GetPrivateData (SetPrivateData w type object slot data) type object slot = data.
Proof. unfold GetPrivateData, SetPrivateData. cbn. rewrite lookup_insert_eq. reflexivity. Qed.

Lemma get_set_private_data_ne (w : vk_state) (k k' : Z * Z * Z) (data : Z) :
  k <> k' ->
  GetPrivateData (SetPrivateData w k.1.1 k.1.2 k.2 data) k'.1.1 k'.1.2 k'.2
  = GetPrivateData w k'.1.1 k'.1.2 k'.2.
Proof.
  destruct k as [[t o] s], k' as [[t' o'] s']. cbn. intros Hne.
  unfold GetPrivateData, SetPrivateData. cbn. rewrite lookup_insert_ne by exact Hne.
  reflexivity.
Qed.

Lemma operator_delete_live (w : vk_state) (p : Z) :
  p <> 0 -> p ∈ heap w ->
  operator_delete w p = Ok (with_heap w (heap w ∖ {[p]})).
Proof.
  intros Hp Hin. unfold operator_delete.
  destruct (Z.eqb_spec p 0) as [|_]; [contradiction|].
  destruct (decide (p ∈ heap w)); [reflexivity | contradiction].
Qed.

(** C4 as the code has it: the typed [unregister_object<type>] returns at
    once for the null handle, the state untouched; for a registered
    non-null handle it frees the metadata record and leaves the tag 0, the
    tags of all other objects unchanged. The untyped
    [unregister_object(type, object)] has no null check and frees nothing:
    for every handle it leaves the live records as they are, sets the tag
    of that handle to 0 and leaves all other tags unchanged. *)
Theorem unregister_object_overloads (d : device_impl) (w : vk_state) (type object : Z) :
  unregister_object d w type VK_NULL_HANDLE = Ok w /\
  (forall p : Z, registered d w type object p ->
     exists w' : vk_state,
       unregister_object d w type object = Ok w' /\
       heap w' = heap w ∖ {[p]} /\
       (p ∉ heap w') /\
       GetPrivateData w' type object (_private_data_slot d) = 0 /\
       forall type' object' slot' : Z,
         (type', object', slot') <> (type, object, _private_data_slot d) ->
         GetPrivateData w' type' object' slot' = GetPrivateData w type' object' slot') /\
  heap (unregister_object_raw d w type object) = heap w /\
  GetPrivateData (unregister_object_raw d w type object) type object
    (_private_data_slot d) = 0 /\
  (forall type' object' slot' : Z,
     (type', object', slot') <> (type, object, _private_data_slot d) ->
     GetPrivateData (unregister_object_raw d w type object) type' object' slot'
     = GetPrivateData w type' object' slot').
Proof.
  split; [reflexivity|]. split; [|split; [reflexivity|split]].
  - intros p (Hobj & Hget & Hp & Hlive). unfold unregister_object.
    destruct (Z.eqb_spec object VK_NULL_HANDLE) as [|_]; [contradiction|].
    rewrite Hget, (operator_delete_live w p Hp Hlive). cbn [bind].
    eexists. split; [reflexivity|]. split; [reflexivity|]. split; [|split].
    + cbn. intros (_ & Hn)%elem_of_difference. apply Hn, elem_of_singleton. reflexivity.
    + apply get_set_private_data_eq.
    + intros type' object' slot' Hne.
      apply (get_set_private_data_ne (with_heap w (heap w ∖ {[p]}))
               (type, object, _private_data_slot d) (type', object', slot')).
      congruence.
  - apply get_set_private_data_eq.
  - intros type' object' slot' Hne.
    apply (get_set_private_data_ne w (type, object, _private_data_slot d)
             (type', object', slot')).
    congruence.
Qed.

Lemma unregister_object_overloads_witness :
  exists w' : vk_state,
    unregister_object sample_device sample_registered 3 42 = Ok w' /\
    heap w' = heap sample_registered ∖ {[1]}.
Proof.
  destruct (unregister_object_overloads sample_device sample_registered 3 42)
    as (_ & H & _).
  destruct (H 1) as (w' & H1 & H2 & _).
  - repeat split; discriminate.
  - exists w'. split; assumption.
Defined.

(** C4 as stated fails for the untyped overload: on a registered non-null
    handle it frees no record (the record stays allocated with no tag
    pointing at it), and on the null handle it is not a no-op (a tag stored
    under the null handle is cleared). *)
Lemma untyped_unregister_neither_frees_nor_skips_null :
  registered sample_device sample_registered 3 42 1 /\
  1 ∈ heap (unregister_object_raw sample_device sample_registered 3 42) /\
  GetPrivateData (register_object_raw sample_device sample_vk 3 VK_NULL_HANDLE 5)
    3 VK_NULL_HANDLE 7 = 5 /\
  GetPrivateData
    (unregister_object_raw sample_device
       (register_object_raw sample_device sample_vk 3 VK_NULL_HANDLE 5)
       3 VK_NULL_HANDLE)
    3 VK_NULL_HANDLE 7 = 0 /\
  unregister_object_raw sample_device
    (register_object_raw sample_device sample_vk 3 VK_NULL_HANDLE 5) 3 VK_NULL_HANDLE
  <> register_object_raw sample_device sample_vk 3 VK_NULL_HANDLE 5.
Proof.
  split; [repeat split; discriminate|].
  split; [vm_compute; reflexivity|].
  split; [reflexivity|]. split; [reflexivity|].
  intros H.
  assert (H' : GetPrivateData
                 (unregister_object_raw sample_device
                    (register_object_raw sample_device sample_vk 3 VK_NULL_HANDLE 5)
                    3 VK_NULL_HANDLE) 3 VK_NULL_HANDLE 7
               = GetPrivateData
                   (register_object_raw sample_device sample_vk 3 VK_NULL_HANDLE 5)
                   3 VK_NULL_HANDLE 7) by (rewrite H; reflexivity).
  vm_compute in H'. discriminate.
Qed.

Section Allocator.

Variable operator_new : gset Z -> Z.
Variable ndebug : bool.
Variable hash : list Z -> Z.

(** [operator new] returns a non-null address that is not in use. *)
Hypothesis operator_new_fresh :
  forall h : gset Z, operator_new h <> 0 /\ operator_new h ∉ h.

Lemma register_object_ok (d : device_impl) (w w1 : vk_state) (type object : Z) :
  register_object operator_new ndebug d w type object = Ok w1 ->
  w1 = SetPrivateData (with_heap w ({[operator_new (heap w)]} ∪ heap w))
         type object (_private_data_slot d) (operator_new (heap w)) /\
  (ndebug = false -> object <> VK_NULL_HANDLE).
Proof.
  unfold register_object, assert.
  destruct (Z.eqb_spec object VK_NULL_HANDLE) as [->|Hne], ndebug; cbn;
    intros H; try discriminate; injection H as <-; split; congruence.
Qed.

(** A call changes neither the constant members nor the private data slot. *)
Lemma step_constants (d d' : device_impl) (w w' : vk_state) (o : op) :
  step operator_new ndebug hash (d, w) o = Ok (d', w') ->
  constants_of d' = constants_of d /\ _private_data_slot d' = _private_data_slot d.
Proof.
  destruct o; cbn [step]; intros H.
  - destruct (register_object _ _ _ _ _ _); cbn in H; try discriminate.
    injection H as <- <-. split; reflexivity.
  - injection H as <- <-. split; reflexivity.
  - destruct (unregister_object _ _ _ _); cbn in H; try discriminate.
    injection H as <- <-. split; reflexivity.
  - injection H as <- <-. split; reflexivity.
  - destruct (get_private_data_for_object _ _ _ _ _); cbn in H; try discriminate.
    injection H as <- <-. split; reflexivity.
  - injection H as <- <-. split; reflexivity.
  - injection H as <- <-. split; reflexivity.
  - injection H as <- <-. split; reflexivity.
  - unfold render_pass_get in H.
    destruct (render_pass_find _ _ _); [|destruct (_render_pass_lookup _ !! _)];
      cbn in H; injection H as <- <-; split; reflexivity.
Qed.

Lemma run_ops_constants (ops : list op) : forall (d d' : device_impl) (w w' : vk_state),
  run_ops operator_new ndebug hash ops (d, w) = Ok (d', w') ->
  constants_of d' = constants_of d /\ _private_data_slot d' = _private_data_slot d.
Proof.
  induction ops as [|o ops IH]; intros d d' w w' H; cbn [run_ops] in H.
  - injection H as <- <-. split; reflexivity.
  - destruct (step _ _ _ (d, w) o) as [[d1 w1]| |] eqn:E; cbn [bind] in H; try discriminate.
    apply step_constants in E as [E1 E2]. apply IH in H as [H1 H2].
    split; congruence.
Qed.

(** A call on another object leaves the tag of [(type, object)] alone. *)
Lemma step_other_object (d d' : device_impl) (w w' : vk_state) (o : op)
    (type object : Z) :
  step operator_new ndebug hash (d, w) o = Ok (d', w') ->
  op_object o <> Some (type, object) ->
  GetPrivateData w' type object (_private_data_slot d)
  = GetPrivateData w type object (_private_data_slot d).
Proof.
  destruct o as [t o|t o p|t o|t o|t o|g v| | |info]; cbn [step op_object];
    intros H Hne.
  - destruct (register_object _ _ _ _ _ _) as [w1| |] eqn:E; cbn in H; try discriminate.
    injection H as <- <-. apply register_object_ok in E as [-> _].
    rewrite (get_set_private_data_ne _ (t, o, _private_data_slot d)
               (type, object, _private_data_slot d)) by congruence.
    reflexivity.
  - injection H as <- <-.
    apply (get_set_private_data_ne w (t, o, _private_data_slot d)
             (type, object, _private_data_slot d)). congruence.
  - unfold unregister_object in H.
    destruct (o =? VK_NULL_HANDLE); cbn in H; [injection H as <- <-; reflexivity|].
    destruct (operator_delete _ _) as [w1| |] eqn:E; cbn in H; try discriminate.
    injection H as <- <-.
    rewrite (get_set_private_data_ne w1 (t, o, _private_data_slot d)
               (type, object, _private_data_slot d)) by congruence.
    unfold operator_delete in E.
    destruct (_ =? 0); [injection E as <-; reflexivity|].
    destruct (decide _); [injection E as <-; reflexivity | discriminate].
  - injection H as <- <-.
    apply (get_set_private_data_ne w (t, o, _private_data_slot d)
             (type, object, _private_data_slot d)). congruence.
  - destruct (get_private_data_for_object _ _ _ _ _); cbn in H; try discriminate.
    injection H as <- <-. reflexivity.
  - injection H as <- <-. reflexivity.
  - injection H as <- <-. reflexivity.
  - injection H as <- <-. reflexivity.
  - unfold render_pass_get in H.
    destruct (render_pass_find _ _ _); [|destruct (_render_pass_lookup _ !! _)];
      cbn in H; injection H as <- <-; reflexivity.
Qed.

Lemma run_ops_other_object (ops : list op) (type object : Z) :
  forall (d d' : device_impl) (w w' : vk_state),
  run_ops operator_new ndebug hash ops (d, w) = Ok (d', w') ->
  Forall (fun o => op_object o <> Some (type, object)) ops ->
  GetPrivateData w' type object (_private_data_slot d')
  = GetPrivateData w type object (_private_data_slot d).
Proof.
  induction ops as [|o ops IH]; intros d d' w w' H Hall; cbn [run_ops] in H.
  - injection H as <- <-. reflexivity.
  - destruct (step _ _ _ (d, w) o) as [[d1 w1]| |] eqn:E; cbn [bind] in H; try discriminate.
    apply Forall_cons in Hall as [Ho Hall].
    rewrite (IH _ _ _ _ H Hall).
    destruct (step_constants _ _ _ _ _ E) as [_ ->].
    apply (step_other_object _ _ _ _ _ _ _ E Ho).
Qed.

(** C5: with assertions compiled in, the lookup ends in the assertion
    failure exactly when the handle is null or carries no metadata (tag 0),
    in particular for a handle that was never registered; and for a handle
    that was registered and not unregistered or re-registered since, it
    returns the pointer that the registration stored. *)
Theorem lookup_asserts_and_returns_registered
    (d d2 : device_impl) (w w1 w2 : vk_state) (type object : Z) (ops : list op) :
  register_object operator_new ndebug d w type object = Ok w1 ->
  Forall (fun o => op_object o <> Some (type, object)) ops ->
  run_ops operator_new ndebug hash ops (d, w1) = Ok (d2, w2) ->
  (forall (d0 : device_impl) (w0 : vk_state) (type0 object0 : Z),
     get_private_data_for_object false d0 w0 type0 object0 = AssertionFailed <->
     object0 = VK_NULL_HANDLE \/
     GetPrivateData w0 type0 object0 (_private_data_slot d0) = 0) /\
  (forall (d0 : device_impl) (w0 : vk_state) (type0 object0 : Z),
     object_private_data w0 !! (type0, object0, _private_data_slot d0) = None ->
     get_private_data_for_object false d0 w0 type0 object0 = AssertionFailed) /\
  GetPrivateData w1 type object (_private_data_slot d) = operator_new (heap w) /\
  get_private_data_for_object ndebug d2 w2 type object = Ok (operator_new (heap w)).
Proof.
  intros Hreg Hall Hrun.
  assert (Hassert : forall (d0 : device_impl) (w0 : vk_state) (type0 object0 : Z),
     get_private_data_for_object false d0 w0 type0 object0 = AssertionFailed <->
     object0 = VK_NULL_HANDLE \/
     GetPrivateData w0 type0 object0 (_private_data_slot d0) = 0).
  { intros d0 w0 type0 object0. unfold get_private_data_for_object, assert.
    destruct (Z.eqb_spec object0 VK_NULL_HANDLE) as [->|Hne]; cbn.
    - split; [left; reflexivity | reflexivity].
    - destruct (Z.eqb_spec (GetPrivateData w0 type0 object0 (_private_data_slot d0)) 0)
        as [e|ne]; cbn.
      + split; [right; exact e | reflexivity].
      + split; [discriminate | intros [?|?]; contradiction]. }
  split; [exact Hassert|]. split.
  { intros d0 w0 type0 object0 Hnone. apply Hassert. right.
    unfold GetPrivateData. rewrite Hnone. reflexivity. }
  apply register_object_ok in Hreg as [-> Hobj].
  split; [apply get_set_private_data_eq|].
  pose proof (run_ops_other_object ops type object _ _ _ _ Hrun Hall) as Hget.
  rewrite get_set_private_data_eq in Hget.
  unfold get_private_data_for_object, assert. rewrite Hget.
  destruct (operator_new_fresh (heap w)) as [Hp _].
  destruct ndebug; cbn; [reflexivity|].
  destruct (Z.eqb_spec object VK_NULL_HANDLE) as [e|_]; [destruct (Hobj eq_refl e)|].
  destruct (Z.eqb_spec (operator_new (heap w)) 0) as [e|_]; [contradiction|].
  reflexivity.
Qed.

End Allocator.

Lemma fresh_address_fresh (h : gset Z) : fresh_address h <> 0 /\ fresh_address h ∉ h.
Proof.
  unfold fresh_address. pose proof (is_fresh ({[0]} ∪ h)) as H.
  split; [intros e; apply H; rewrite e|intros Hin; apply H]; set_solver.
Qed.

Lemma lookup_asserts_and_returns_registered_witness :
  let w1 := from_ok sample_vk
              (register_object fresh_address false sample_device sample_vk 3 42) in
  let ops := [RegisterObject 3 43; UnregisterObject 3 43] in
  let s2 := from_ok (sample_device, w1)
              (run_ops fresh_address false sample_hash ops (sample_device, w1)) in
  get_private_data_for_object false (fst s2) (snd s2) 3 42
  = Ok (fresh_address (heap sample_vk)).
Proof.
  intros w1 ops s2.
  apply (lookup_asserts_and_returns_registered fresh_address false sample_hash
           fresh_address_fresh sample_device (fst s2) sample_vk w1 (snd s2) 3 42 ops).
  - reflexivity.
  - repeat constructor; discriminate.
  - vm_compute. reflexivity.
Defined.

Section Ring.

Variable operator_new : gset Z -> Z.
Variable ndebug : bool.
Variable hash : list Z -> Z.

Lemma gen_at_alter (w : vk_state) (n i : nat) :
  (n < length (pool_generation w))%nat ->
  gen_at (with_pool_generation w (alter S n (pool_generation w))) i
  = if decide (n = i) then S (gen_at w i) else gen_at w i.
Proof.
  intros Hn. unfold gen_at. cbn. rewrite list_lookup_alter.
  destruct (decide (n = i)) as [->|]; [|reflexivity].
  destruct (lookup_lt_is_Some_2 _ _ Hn) as [x ->]. reflexivity.
Qed.

(** Only a rotation touches the cursor and the generations. *)
Lemma step_ring (d d' : device_impl) (w w' : vk_state) (o : op) :
  step operator_new ndebug hash (d, w) o = Ok (d', w') ->
  if is_advance o then (d', w') = advance_transient_descriptor_pool d w
  else _transient_index d' = _transient_index d /\
       pool_generation w' = pool_generation w.
Proof.
  destruct o; cbn [step is_advance]; intros H.
  - unfold register_object in H. destruct (assert _ _); cbn in H; try discriminate.
    injection H as <- <-. split; reflexivity.
  - injection H as <- <-. split; reflexivity.
  - unfold unregister_object in H.
    destruct (_ =? VK_NULL_HANDLE); cbn in H; [injection H as <- <-; split; reflexivity|].
    unfold operator_delete in H. destruct (_ =? 0); cbn in H;
      [injection H as <- <-; split; reflexivity|].
    destruct (decide _); cbn in H; [injection H as <- <-; split; reflexivity | discriminate].
  - injection H as <- <-. split; reflexivity.
  - destruct (get_private_data_for_object _ _ _ _ _); cbn in H; try discriminate.
    injection H as <- <-. split; reflexivity.
  - injection H as <- <-. split; reflexivity.
  - symmetry. congruence.
  - injection H as <- <-. split; reflexivity.
  - unfold render_pass_get in H.
    destruct (render_pass_find _ _ _); [|destruct (_render_pass_lookup _ !! _)];
      cbn in H; injection H as <- <-; split; reflexivity.
Qed.

(** After a run with [k] rotations from cursor [c]: the cursor is
    [(c + k) mod 4], no generation went down, the pools at
    [c + 1 .. c + k] (mod 4) were reused and the others were not. *)
Lemma ring_progress (ops : list op) : forall (d d' : device_impl) (w w' : vk_state),
  ring_ok d w ->
  run_ops operator_new ndebug hash ops (d, w) = Ok (d', w') ->
  ring_ok d' w' /\
  forall z : Z, 0 <= z < 4 ->
    (gen_at w (Z.to_nat z) <= gen_at w' (Z.to_nat z))%nat /\
    ((exists j : Z, 1 <= j <= Z.of_nat (rotations ops) /\
                    (_transient_index d + j) mod 4 = z) ->
     (gen_at w (Z.to_nat z) < gen_at w' (Z.to_nat z))%nat) /\
    ((forall j : Z, 1 <= j <= Z.of_nat (rotations ops) ->
                    (_transient_index d + j) mod 4 <> z) ->
     gen_at w' (Z.to_nat z) = gen_at w (Z.to_nat z)).
Proof.
  induction ops as [|o ops IH]; intros d d' w w' Hok H; cbn [run_ops] in H.
  - injection H as <- <-. split; [exact Hok|]. intros z Hz. cbn.
    split; [lia|]. split; [intros (j & Hj & _); lia | reflexivity].
  - destruct (step _ _ _ (d, w) o) as [[d1 w1]| |] eqn:E; cbn [bind] in H; try discriminate.
    apply step_ring in E. cbn [rotations].
    destruct (is_advance o) eqn:Ho.
    + unfold advance_transient_descriptor_pool in E. injection E as -> ->.
      destruct Hok as [Hlen Hidx].
      set (n := (_transient_index d + 1) mod 4) in *.
      assert (Hn : 0 <= n < 4) by (apply Z.mod_pos_bound; lia).
      assert (Hok1 : ring_ok (with_transient_index d n)
                (with_pool_generation w (alter S (Z.to_nat n) (pool_generation w)))).
      { split; [cbn; rewrite length_alter; exact Hlen | exact Hn]. }
      destruct (IH _ _ _ _ Hok1 H) as [Hok' Hgen]. split; [exact Hok'|].
      intros z Hz. destruct (Hgen z Hz) as (Hle & Hlt & Heq). clear Hgen.
      cbn [_transient_index with_transient_index] in Hlt, Heq.
      pose proof (gen_at_alter w (Z.to_nat n) (Z.to_nat z) ltac:(lia)) as Hg1.
      rewrite Hg1 in Hle, Hlt, Heq. clear Hg1.
      assert (Hshift : forall j, (n + j) mod 4 = (_transient_index d + (j + 1)) mod 4).
      { intros j. subst n. rewrite Z.add_mod_idemp_l by lia. f_equal. lia. }
      change (1 + rotations ops)%nat with (S (rotations ops)). rewrite Nat2Z.inj_succ.
      destruct (decide (Z.to_nat n = Z.to_nat z)) as [Hnz|Hnz].
      * split; [lia|]. split; [intros _; lia|].
        intros Hnone. exfalso. apply (Hnone 1); [lia|]. fold n. lia.
      * split; [lia|]. split.
        -- intros (j & Hj & Hjz). apply Hlt.
           assert (j <> 1) by (intros ->; fold n in Hjz; lia).
           exists (j - 1). split; [lia|]. rewrite Hshift.
           replace (j - 1 + 1) with j by lia. exact Hjz.
        -- intros Hnone. apply Heq. intros j Hj. rewrite Hshift. apply Hnone. lia.
    + destruct E as [Ei Eg].
      assert (Hok1 : ring_ok d1 w1).
      { destruct Hok as [Hlen Hidx]. split; [rewrite Eg; exact Hlen | rewrite Ei; exact Hidx]. }
      destruct (IH _ _ _ _ Hok1 H) as [Hok' Hgen]. split; [exact Hok'|].
      intros z Hz. destruct (Hgen z Hz) as (Hle & Hlt & Heq).
      unfold gen_at in *. rewrite Eg, Ei in *. split; [exact Hle|]. split; assumption.
Qed.

Lemma valid_iff_generation (d : device_impl) (w w' : vk_state) :
  ring_ok d w -> length (pool_generation w') = 4%nat ->
  descriptor_set_valid w' (allocate_transient_descriptor_set d w) = true <->
  gen_at w' (Z.to_nat (_transient_index d)) = gen_at w (Z.to_nat (_transient_index d)).
Proof.
  intros [Hlen Hidx] Hlen'. unfold descriptor_set_valid, allocate_transient_descriptor_set.
  cbn [set_pool set_generation]. fold (gen_at w (Z.to_nat (_transient_index d))).
  rewrite bool_decide_eq_true. unfold gen_at at 2.
  destruct (lookup_lt_is_Some_2 (pool_generation w') (Z.to_nat (_transient_index d))
              ltac:(lia)) as [x ->].
  cbn. split; congruence.
Qed.

(** C3: a descriptor set allocated from the transient pool under the cursor
    is valid when allocated and is no longer valid after any sequence of
    calls that contains four (the number of pools) or more rotations. *)
Theorem transient_set_invalid_after_ring_depth
    (ops : list op) (d d' : device_impl) (w w' : vk_state) :
  ring_ok d w ->
  run_ops operator_new ndebug hash ops (d, w) = Ok (d', w') ->
  (4 <= rotations ops)%nat ->
  descriptor_set_valid w (allocate_transient_descriptor_set d w) = true /\
  descriptor_set_valid w' (allocate_transient_descriptor_set d w) = false.
Proof.
  intros Hok Hrun Hrot. split.
  - apply (valid_iff_generation d w w Hok); [apply Hok | reflexivity].
  - destruct (ring_progress ops d d' w w' Hok Hrun) as [[Hlen' _] Hgen].
    destruct (Hgen (_transient_index d) (proj2 Hok)) as (_ & Hlt & _).
    apply not_true_is_false. rewrite (valid_iff_generation d w w' Hok Hlen').
    assert ((gen_at w (Z.to_nat (_transient_index d))
             < gen_at w' (Z.to_nat (_transient_index d)))%nat); [|lia].
    apply Hlt. exists 4. split; [lia|].
    destruct Hok as [_ Hidx].
    rewrite <- (Z.mul_1_l 4) at 1. rewrite Z.mod_add by lia.
    apply Z.mod_small. exact Hidx.
Qed.

(** A set stays valid as long as fewer than four rotations were made. *)
Lemma transient_set_valid_within_ring_depth
    (ops : list op) (d d' : device_impl) (w w' : vk_state) :
  ring_ok d w ->
  run_ops operator_new ndebug hash ops (d, w) = Ok (d', w') ->
  (rotations ops < 4)%nat ->
  descriptor_set_valid w' (allocate_transient_descriptor_set d w) = true.
Proof.
  intros Hok Hrun Hrot.
  destruct (ring_progress ops d d' w w' Hok Hrun) as [[Hlen' _] Hgen].
  destruct (Hgen (_transient_index d) (proj2 Hok)) as (_ & _ & Heq).
  apply (valid_iff_generation d w w' Hok Hlen'). apply Heq.
  intros j Hj Hmod. destruct Hok as [_ Hidx].
  revert Hmod. generalize (_transient_index d) Hidx. intros c Hc.
  assert (Hj' : j = 1 \/ j = 2 \/ j = 3) by lia.
  assert (Hc' : c = 0 \/ c = 1 \/ c = 2 \/ c = 3) by lia.
  destruct Hj' as [-> | [-> | ->]], Hc' as [-> | [-> | [-> | ->]]]; discriminate.
Qed.

(** The cursor after a run: it moved by the number of rotations, cyclically. *)
Lemma cursor_after_run (ops : list op) : forall (d d' : device_impl) (w w' : vk_state),
  0 <= _transient_index d < 4 ->
  run_ops operator_new ndebug hash ops (d, w) = Ok (d', w') ->
  _transient_index d' = (_transient_index d + Z.of_nat (rotations ops)) mod 4.
Proof.
  induction ops as [|o ops IH]; intros d d' w w' Hidx H; cbn [run_ops rotations] in *.
  - injection H as <- <-. rewrite Z.add_0_r, Z.mod_small; [reflexivity | exact Hidx].
  - destruct (step _ _ _ (d, w) o) as [[d1 w1]| |] eqn:E; cbn [bind] in H; try discriminate.
    apply step_ring in E. destruct (is_advance o).
    + unfold advance_transient_descriptor_pool in E. injection E as -> ->.
      apply IH in H; [|cbn; apply Z.mod_pos_bound; lia]. rewrite H.
      cbn [_transient_index with_transient_index].
      rewrite Z.add_mod_idemp_l by lia. f_equal. lia.
    + destruct E as [Ei _]. apply IH in H; [|rewrite Ei; exact Hidx].
      rewrite H, Ei. reflexivity.
Qed.

End Ring.

Lemma transient_set_invalid_after_ring_depth_witness :
  let ops := [AdvanceTransientDescriptorPool; AllocateTransientDescriptorSet;
              AdvanceTransientDescriptorPool; AdvanceTransientDescriptorPool;
              AdvanceTransientDescriptorPool] in
  let s := from_ok (sample_device, sample_vk)
             (run_ops fresh_address false sample_hash ops (sample_device, sample_vk)) in
  descriptor_set_valid (snd s)
    (allocate_transient_descriptor_set sample_device sample_vk) = false.
Proof.
  intros ops s.
  apply (transient_set_invalid_after_ring_depth fresh_address false sample_hash ops
           sample_device (fst s) sample_vk (snd s)).
  - split; [reflexivity | cbn; lia].
  - vm_compute. reflexivity.
  - cbn. lia.
Defined.

Lemma transient_set_valid_within_ring_depth_witness :
  let ops := [AdvanceTransientDescriptorPool; AllocateTransientDescriptorSet;
              AdvanceTransientDescriptorPool; AdvanceTransientDescriptorPool] in
  let s := from_ok (sample_device, sample_vk)
             (run_ops fresh_address false sample_hash ops (sample_device, sample_vk)) in
  descriptor_set_valid (snd s)
    (allocate_transient_descriptor_set sample_device sample_vk) = true.
Proof.
  intros ops s.
  apply (transient_set_valid_within_ring_depth fresh_address false sample_hash ops
           sample_device (fst s) sample_vk (snd s)).
  - split; [reflexivity | cbn; lia].
  - vm_compute. reflexivity.
  - cbn. lia.
Defined.

Section RenderPassCache.

Variable hash : list Z -> Z.







End RenderPassCache.



Section Registration.

Variable operator_new : gset Z -> Z.
Variable ndebug : bool.
Variable hash : list Z -> Z.

Hypothesis operator_new_fresh :
  forall h : gset Z, operator_new h <> 0 /\ operator_new h ∉ h.

Lemma unregister_object_ok (d : device_impl) (w w1 : vk_state) (type object : Z) :
  unregister_object d w type object = Ok w1 ->
  (object = VK_NULL_HANDLE /\ w1 = w) \/
  (object <> VK_NULL_HANDLE /\
   exists w' : vk_state,
     operator_delete w (GetPrivateData w type object (_private_data_slot d)) = Ok w' /\
     w1 = SetPrivateData w' type object (_private_data_slot d) 0).
Proof.
  unfold unregister_object. destruct (Z.eqb_spec object VK_NULL_HANDLE) as [->|Hne].
  - intros [= <-]. left. split; reflexivity.
  - destruct (operator_delete _ _) as [w'| |]; cbn [bind]; try discriminate.
    intros [= <-]. right. split; [exact Hne|]. exists w'. split; reflexivity.
Qed.

Lemma vk_state_eq (w1 w2 : vk_state) :
  object_private_data w1 = object_private_data w2 -> heap w1 = heap w2 ->
  pool_generation w1 = pool_generation w2 -> next_handle w1 = next_handle w2 ->
  w1 = w2.
Proof. destruct w1, w2. cbn. intros -> -> -> ->. reflexivity. Qed.

(** X5: Registering a non-null handle and unregistering it again frees the
    record that the registration allocated: the live allocations are those
    from before, the tag reads 0, the tags of all other objects are as
    before, and a lookup of the handle fails its assertion. *)
Theorem register_then_unregister
    (d : device_impl) (w w1 : vk_state) (type object : Z) :
  register_object operator_new ndebug d w type object = Ok w1 ->
  object <> VK_NULL_HANDLE ->
  exists w2 : vk_state,
    unregister_object d w1 type object = Ok w2 /\
    heap w2 = heap w /\
    GetPrivateData w2 type object (_private_data_slot d) = 0 /\
    (forall type' object' slot' : Z,
       (type', object', slot') <> (type, object, _private_data_slot d) ->
       GetPrivateData w2 type' object' slot' = GetPrivateData w type' object' slot') /\
    get_private_data_for_object false d w2 type object = AssertionFailed.
Proof.
  intros Hreg Hobj. apply register_object_ok in Hreg as [-> _].
  destruct (operator_new_fresh (heap w)) as [Hp Hfresh].
  unfold unregister_object.
  destruct (Z.eqb_spec object VK_NULL_HANDLE) as [|_]; [contradiction|].
  rewrite get_set_private_data_eq.
  rewrite operator_delete_live; [|exact Hp | cbn; set_solver]. cbn [bind].
  eexists. split; [reflexivity|]. split; [cbn; set_solver|]. split; [|split].
  - apply get_set_private_data_eq.
  - intros type' object' slot' Hne.
    rewrite (get_set_private_data_ne _ (type, object, _private_data_slot d)
               (type', object', slot')) by congruence.
    change (GetPrivateData (with_heap ?x _) ?a ?b ?c) with (GetPrivateData x a b c).
    rewrite (get_set_private_data_ne _ (type, object, _private_data_slot d)
               (type', object', slot')) by congruence.
    reflexivity.
  - unfold get_private_data_for_object, assert.
    destruct (Z.eqb_spec object VK_NULL_HANDLE) as [|_]; [contradiction|].
    rewrite get_set_private_data_eq. reflexivity.
Qed.

(** X6: Unregistering twice is harmless: the second call finds the tag 0,
    deletes nothing and leaves the state as the first call left it. *)
Theorem unregister_object_twice
    (d : device_impl) (w w1 : vk_state) (type object : Z) :
  unregister_object d w type object = Ok w1 ->
  unregister_object d w1 type object = Ok w1.
Proof.
  intros H. destruct (unregister_object_ok d w w1 type object H)
    as [[-> ->] | (Hne & w' & _ & ->)]; [reflexivity|].
  unfold unregister_object.
  destruct (Z.eqb_spec object VK_NULL_HANDLE) as [|_]; [contradiction|].
  rewrite get_set_private_data_eq. cbn [operator_delete Z.eqb bind]. f_equal.
  apply vk_state_eq; try reflexivity. cbn. apply insert_insert_eq.
Qed.

(** X7: Registering a handle that is registered already stores the new record
    and does not free the old one: after unregistering, the record of the
    first registration is still allocated. *)
Theorem register_twice_leaks
    (d : device_impl) (w w1 w2 : vk_state) (type object : Z) :
  register_object operator_new ndebug d w type object = Ok w1 ->
  register_object operator_new ndebug d w1 type object = Ok w2 ->
  object <> VK_NULL_HANDLE ->
  (operator_new (heap w) ∉ heap w) /\
  GetPrivateData w2 type object (_private_data_slot d) = operator_new (heap w1) /\
  operator_new (heap w1) <> operator_new (heap w) /\
  exists w3 : vk_state,
    unregister_object d w2 type object = Ok w3 /\
    heap w3 = {[operator_new (heap w)]} ∪ heap w.
Proof.
  intros H1 H2 Hobj.
  apply register_object_ok in H1 as [-> _]. apply register_object_ok in H2 as [-> _].
  destruct (operator_new_fresh (heap w)) as [Hp Hfresh].
  cbn [heap SetPrivateData with_object_private_data with_heap].
  set (p1 := operator_new (heap w)) in *.
  destruct (operator_new_fresh ({[p1]} ∪ heap w)) as [Hp2 Hfresh2].
  set (p2 := operator_new ({[p1]} ∪ heap w)) in *.
  split; [exact Hfresh|]. split; [apply get_set_private_data_eq|].
  split; [set_solver|].
  unfold unregister_object.
  destruct (Z.eqb_spec object VK_NULL_HANDLE) as [|_]; [contradiction|].
  rewrite get_set_private_data_eq.
  rewrite operator_delete_live; [|exact Hp2 | cbn; set_solver]. cbn [bind].
  eexists. split; [reflexivity|]. cbn. set_solver.
Qed.

(** A call that is not an untyped registration keeps the tags consistent
    and deletes only live records. *)
Lemma step_tags_ok (d : device_impl) (w : vk_state) (o : op) :
  tags_ok w -> is_raw_register o = false ->
  step operator_new ndebug hash (d, w) o <> UndefinedBehaviour /\
  forall (d' : device_impl) (w' : vk_state),
    step operator_new ndebug hash (d, w) o = Ok (d', w') -> tags_ok w'.
Proof.
  intros [Hlive Hinj] Hraw.
  destruct o as [t o|t o p|t o|t o|t o|g v| | |info]; cbn [step is_raw_register] in *;
    try discriminate.
  - unfold register_object, assert. destruct (ndebug || _); cbv zeta; cbn [bind];
      (split; [discriminate|]); intros d' w' H; try discriminate.
    injection H as <- <-.
    destruct (operator_new_fresh (heap w)) as [Hp Hfresh].
    split; cbn.
    + intros k p. rewrite lookup_insert. case_decide.
      * intros [= <-] _. set_solver.
      * intros Hk Hnz. pose proof (Hlive k p Hk Hnz). set_solver.
    + intros k1 k2 p. rewrite !lookup_insert. repeat case_decide; try congruence.
      * intros [= <-] Hk2 Hnz. destruct Hfresh. exact (Hlive k2 _ Hk2 Hnz).
      * intros Hk1 [= <-] Hnz. destruct Hfresh. exact (Hlive k1 _ Hk1 Hnz).
      * apply Hinj.
  - unfold unregister_object. destruct (Z.eqb_spec o VK_NULL_HANDLE) as [->|Hne]; cbn [bind].
    + split; [discriminate|]. intros d' w' [= <- <-]. split; assumption.
    + unfold operator_delete.
      set (p := GetPrivateData w t o (_private_data_slot d)).
      assert (Hp_live : p <> 0 ->
                p ∈ heap w /\ object_private_data w !! (t, o, _private_data_slot d) = Some p).
      { unfold p, GetPrivateData.
        destruct (object_private_data w !! (t, o, _private_data_slot d)) as [q|] eqn:Hk;
          cbn; [|congruence].
        intros Hq. split; [exact (Hlive _ _ Hk Hq) | reflexivity]. }
      destruct (Z.eqb_spec p 0) as [Hz|Hnz]; cbn [bind].
      * split; [discriminate|]. intros d' w' [= <- <-]. split; cbn.
        -- intros k q. rewrite lookup_insert. case_decide; [congruence | apply Hlive].
        -- intros k1 k2 q. rewrite !lookup_insert. repeat case_decide; try congruence.
           apply Hinj.
      * destruct (Hp_live Hnz) as [Hin Hk].
        destruct (decide (p ∈ heap w)) as [_|Hout]; [|contradiction].
        cbn [bind]. split; [discriminate|]. intros d' w' [= <- <-]. split; cbn.
        -- intros k q. rewrite lookup_insert. case_decide; [congruence|].
           intros Hq Hqz. apply elem_of_difference. split; [exact (Hlive k q Hq Hqz)|].
           intros ->%elem_of_singleton. pose proof (Hinj _ _ _ Hk Hq Hnz). congruence.
        -- intros k1 k2 q. rewrite !lookup_insert. repeat case_decide; try congruence.
           apply Hinj.
  - split; [discriminate|]. intros d' w' [= <- <-]. split; cbn.
    + intros k q. rewrite lookup_insert. case_decide; [congruence | apply Hlive].
    + intros k1 k2 q. rewrite !lookup_insert. repeat case_decide; try congruence.
      apply Hinj.
  - unfold get_private_data_for_object, assert.
    destruct (ndebug || _); cbv zeta; cbn [bind];
      [|split; [discriminate | intros; discriminate]].
    destruct (ndebug || _); cbn [bind]; (split; [discriminate|]); intros d' w' H;
      try discriminate. injection H as <- <-. split; assumption.
  - split; [discriminate|]. intros d' w' [= <- <-]. split; assumption.
  - split; [discriminate|]. intros d' w' [= <- <-]. split; assumption.
  - split; [discriminate|]. intros d' w' [= <- <-]. split; assumption.
  - split; [discriminate|]. unfold render_pass_get.
    destruct (render_pass_find _ _ _); [|destruct (_render_pass_lookup _ !! _)];
      intros d' w' [= <- <-]; split; assumption.
Qed.

(** X8: From a state with consistent tags, calls other than the untyped
    registration never delete a pointer that is not a live allocation (no
    double free), and they keep the tags consistent. *)
Theorem typed_calls_never_double_free (ops : list op) :
  forall (d : device_impl) (w : vk_state),
  tags_ok w ->
  Forall (fun o => is_raw_register o = false) ops ->
  run_ops operator_new ndebug hash ops (d, w) <> UndefinedBehaviour /\
  forall (d' : device_impl) (w' : vk_state),
    run_ops operator_new ndebug hash ops (d, w) = Ok (d', w') -> tags_ok w'.
Proof.
  induction ops as [|o ops IH]; intros d w Hok Hall; cbn [run_ops].
  - split; [discriminate|]. intros d' w' [= <- <-]. exact Hok.
  - apply Forall_cons in Hall as [Ho Hall].
    destruct (step_tags_ok d w o Hok Ho) as [Hub Hstep].
    destruct (step _ _ _ (d, w) o) as [[d1 w1]| |]; cbn [bind].
    + apply IH; [exact (Hstep d1 w1 eq_refl) | exact Hall].
    + split; [discriminate | intros; discriminate].
    + contradiction.
Qed.

End Registration.

Lemma sample_vk_tags_ok : tags_ok sample_vk.
Proof. split; cbn; intros *; rewrite lookup_empty; discriminate. Qed.

Lemma register_then_unregister_witness :
  exists w2 : vk_state,
    unregister_object sample_device
      (from_ok sample_vk (register_object fresh_address false sample_device sample_vk 3 42))
      3 42 = Ok w2 /\
    heap w2 = heap sample_vk.
Proof.
  destruct (register_then_unregister fresh_address false fresh_address_fresh
              sample_device sample_vk
              (from_ok sample_vk
                 (register_object fresh_address false sample_device sample_vk 3 42))
              3 42 eq_refl ltac:(discriminate)) as (w2 & H1 & H2 & _).
  exists w2. split; assumption.
Defined.

Lemma unregister_object_twice_witness :
  unregister_object sample_device
    (from_ok sample_vk (unregister_object sample_device sample_registered 3 42)) 3 42
  = Ok (from_ok sample_vk (unregister_object sample_device sample_registered 3 42)).
Proof.
  apply (unregister_object_twice sample_device sample_registered). reflexivity.
Defined.

Lemma register_twice_leaks_witness :
  fresh_address (heap sample_vk) ∉ heap sample_vk.
Proof.
  apply (register_twice_leaks fresh_address false fresh_address_fresh sample_device
           sample_vk
           (from_ok sample_vk
              (register_object fresh_address false sample_device sample_vk 3 42))
           (from_ok sample_vk
              (register_object fresh_address false sample_device
                 (from_ok sample_vk
                    (register_object fresh_address false sample_device sample_vk 3 42))
                 3 42))
           3 42); [reflexivity | reflexivity | discriminate].
Defined.

Lemma typed_calls_never_double_free_witness :
  run_ops fresh_address false sample_hash
    [RegisterObject 3 42; RegisterObject 3 42; UnregisterObject 3 42;
     UnregisterObject 3 42; UnregisterObjectRaw 3 42]
    (sample_device, sample_vk) <> UndefinedBehaviour.
Proof.
  apply (typed_calls_never_double_free fresh_address false sample_hash
           fresh_address_fresh _ sample_device sample_vk sample_vk_tags_ok).
  repeat constructor.
Defined.

End DeviceFacts.


Module IniFileFacts.
Import IniFile.

Lemma find_from_ge (c : ascii) (s : str) : forall i k : nat,
  find_from c s i = Some k -> (i <= k < i + length s)%nat.
Proof.
  induction s as [|x s IH]; intros i k H; cbn [find_from] in H; [discriminate|].
  cbn [length]. destruct (Ascii.eqb x c).
  - injection H as <-. lia.
  - apply IH in H. lia.
Qed.

Lemma find_first_of_app (pre rest : str) (c : ascii) :
  find_first_of (pre ++ rest) c (length pre) = find_from c rest (length pre).
Proof. unfold find_first_of. rewrite drop_app_length. reflexivity. Qed.

Lemma find_comma_ge (value : str) (offset : nat) :
  (offset <= length value)%nat ->
  (offset <= find_comma value offset <= length value)%nat.
Proof.
  intros Hle. unfold find_comma, find_first_of.
  destruct (find_from comma (skipn offset value) offset) as [k|] eqn:E; [|lia].
  apply find_from_ge in E. lia.
Qed.

Lemma split_loop_done (fuel : nat) (value : str) (offset base : nat) (elements : list str) :
  (length value < offset)%nat -> split_loop fuel value offset base elements = elements.
Proof.
  intros H. apply Nat.ltb_lt in H. destruct fuel; cbn [split_loop]; rewrite H; reflexivity.
Qed.

Lemma split_loop_step (fuel : nat) (value : str) (offset base : nat) (elements : list str) :
  (offset <= length value)%nat ->
  split_loop (S fuel) value offset base elements =
  if (find_comma value offset + 1 <? length value)
     && Ascii.eqb (char_at value (find_comma value offset + 1)) comma
  then split_loop fuel value (find_comma value offset + 2) base elements
  else split_loop fuel value (find_comma value offset + 1) (find_comma value offset + 1)
         (elements ++ [fst (copy_element (find_comma value offset - base) value base
                              (find_comma value offset) [])]).
Proof.
  intros H. cbn [split_loop].
  replace (length value <? offset) with false by (symmetry; apply Nat.ltb_ge; exact H).
  reflexivity.
Qed.

(** Fuel beyond [S len - offset] changes nothing: the loop has ended. *)
Lemma split_loop_fuel (fuel1 : nat) : forall (fuel2 : nat) (value : str)
    (offset base : nat) (elements : list str),
  (S (length value) - offset <= fuel1)%nat ->
  (S (length value) - offset <= fuel2)%nat ->
  split_loop fuel1 value offset base elements
  = split_loop fuel2 value offset base elements.
Proof.
  induction fuel1 as [|fuel1 IH]; intros fuel2 value offset base elements H1 H2.
  - rewrite !split_loop_done by lia. reflexivity.
  - destruct (Nat.lt_ge_cases (length value) offset) as [Hlt|Hle].
    + rewrite !split_loop_done by lia. reflexivity.
    + destruct fuel2 as [|fuel2]; [lia|].
      rewrite !split_loop_step by exact Hle.
      pose proof (find_comma_ge value offset Hle) as Hf.
      destruct (_ && _); apply IH; lia.
Qed.

Lemma split_from_eq (value : str) (offset base : nat) (elements : list str) :
  split_from value offset base elements =
  if length value <? offset then elements
  else if (find_comma value offset + 1 <? length value)
          && Ascii.eqb (char_at value (find_comma value offset + 1)) comma
  then split_from value (find_comma value offset + 2) base elements
  else split_from value (find_comma value offset + 1) (find_comma value offset + 1)
         (elements ++ [fst (copy_element (find_comma value offset - base) value base
                              (find_comma value offset) [])]).
Proof.
  unfold split_from. destruct (Nat.ltb_spec (length value) offset) as [Hlt|Hle].
  - apply split_loop_done. exact Hlt.
  - replace (S (length value) - offset)%nat with (S (length value - offset)) by lia.
    rewrite split_loop_step by exact Hle.
    pose proof (find_comma_ge value offset Hle) as Hf.
    destruct (_ && _); apply split_loop_fuel; lia.
Qed.

Lemma char_at_app (pre rest : str) (i : nat) :
  char_at (pre ++ rest) (length pre + i) = char_at rest i.
Proof.
  unfold char_at. rewrite List.app_nth2 by lia. f_equal. lia.
Qed.

Lemma char_at_app_0 (pre : str) (c : ascii) (rest : str) :
  char_at (pre ++ c :: rest) (length pre) = c.
Proof.
  rewrite <- (Nat.add_0_r (length pre)) at 1. rewrite char_at_app. reflexivity.
Qed.

Lemma escape_app (a b : str) : escape (a ++ b) = escape a ++ escape b.
Proof. unfold escape. apply flat_map_app. Qed.

(** The inner loop undoes [escape]. *)
Lemma copy_element_escape (e : str) : forall (fuel : nat) (pre suf acc : str),
  (length (escape e) <= fuel)%nat ->
  copy_element fuel (pre ++ escape e ++ suf) (length pre)
    (length pre + length (escape e)) acc
  = (acc ++ e, (length pre + length (escape e))%nat).
Proof.
  induction e as [|c e IH]; intros fuel pre suf acc Hfuel.
  - cbn [escape flat_map length]. rewrite Nat.add_0_r, app_nil_r.
    destruct fuel; cbn [copy_element]; [reflexivity|].
    rewrite Nat.ltb_irrefl. reflexivity.
  - change (escape (c :: e)) with
      ((if Ascii.eqb c comma then [c; c] else [c]) ++ escape e) in *.
    destruct (Ascii.eqb c comma) eqn:Ec.
    + cbn [app length] in *. destruct fuel as [|fuel]; [lia|].
      cbn [copy_element].
      replace (length pre <? length pre + S (S (length (escape e)))) with true
        by (symmetry; apply Nat.ltb_lt; lia).
      rewrite char_at_app_0, Ec.
      replace (S (length pre) <? length pre + S (S (length (escape e)))) with true
        by (symmetry; apply Nat.ltb_lt; lia).
      replace (S (length pre)) with (length pre + 1)%nat at 1 by lia.
      rewrite char_at_app. cbn [char_at nth]. rewrite Ec. cbn [andb].
      specialize (IH fuel (pre ++ [c; c]) suf (acc ++ [c]) ltac:(lia)).
      rewrite length_app in IH. cbn [length] in IH.
      rewrite <- !app_assoc in IH. cbn [app] in IH.
      replace (S (S (length pre))) with (length pre + 2)%nat by lia.
      replace (length pre + S (S (length (escape e))))%nat
        with (length pre + 2 + length (escape e))%nat by lia.
      exact IH.
    + cbn [app length] in *. destruct fuel as [|fuel]; [lia|].
      cbn [copy_element].
      replace (length pre <? length pre + S (length (escape e))) with true
        by (symmetry; apply Nat.ltb_lt; lia).
      rewrite char_at_app_0, Ec. cbn [andb].
      specialize (IH fuel (pre ++ [c]) suf (acc ++ [c]) ltac:(lia)).
      rewrite length_app in IH. cbn [length] in IH.
      rewrite <- !app_assoc in IH. cbn [app] in IH.
      replace (S (length pre)) with (length pre + 1)%nat by lia.
      replace (length pre + S (length (escape e)))%nat
        with (length pre + 1 + length (escape e))%nat by lia.
      exact IH.
Qed.

Lemma find_comma_here (pre rest : str) (c : ascii) :
  Ascii.eqb c comma = true ->
  find_comma (pre ++ c :: rest) (length pre) = length pre.
Proof.
  intros Hc. unfold find_comma. rewrite find_first_of_app. cbn [find_from].
  rewrite Hc, length_app. cbn [length]. lia.
Qed.

Lemma find_comma_next (pre rest : str) (c : ascii) :
  Ascii.eqb c comma = false ->
  find_comma (pre ++ c :: rest) (length pre) = find_comma (pre ++ c :: rest) (S (length pre)).
Proof.
  intros Hc. unfold find_comma. rewrite find_first_of_app. cbn [find_from]. rewrite Hc.
  unfold find_first_of. replace (S (length pre)) with (length pre + 1)%nat at 2 by lia.
  rewrite drop_app_add. reflexivity.
Qed.

Lemma find_comma_end (value : str) : find_comma value (length value) = length value.
Proof.
  unfold find_comma, find_first_of. rewrite drop_all. reflexivity.
Qed.

Lemma skip_char (pre rest : str) (c : ascii) (base : nat) (elements : list str) :
  Ascii.eqb c comma = false ->
  split_from (pre ++ c :: rest) (length pre) base elements
  = split_from (pre ++ c :: rest) (S (length pre)) base elements.
Proof.
  intros Hc. rewrite (split_from_eq _ (length pre)), (split_from_eq _ (S (length pre))).
  rewrite <- (find_comma_next pre rest c Hc).
  replace (length (pre ++ c :: rest) <? length pre) with false
    by (symmetry; apply Nat.ltb_ge; rewrite length_app; cbn [length]; lia).
  replace (length (pre ++ c :: rest) <? S (length pre)) with false
    by (symmetry; apply Nat.ltb_ge; rewrite length_app; cbn [length]; lia).
  reflexivity.
Qed.

(** What may follow an element: the end of the value, or a separating comma
    that is not followed by another comma. *)
Definition clean_tail (tail : str) : Prop :=
  tail = [] \/ exists tail' : str, tail = comma :: tail' /\ starts_with_comma tail' = false.

(** From inside an element up to its separator: the loop appends exactly
    this element and restarts behind the separator. *)
Lemma scan_element (e1 : str) : forall (e0 pre tail value : str) (elements : list str),
  clean_tail tail ->
  value = pre ++ escape e0 ++ escape e1 ++ tail ->
  split_from value (length pre + length (escape e0)) (length pre) elements
  = split_from value (length pre + length (escape e0) + length (escape e1) + 1)
      (length pre + length (escape e0) + length (escape e1) + 1)
      (elements ++ [e0 ++ e1]).
Proof.
  induction e1 as [|c e1 IH]; intros e0 pre tail value elements Hclean Hvalue.
  - cbn [escape flat_map app length] in *. rewrite Nat.add_0_r, app_nil_r.
    assert (Hv : value = (pre ++ escape e0) ++ tail) by (rewrite <- app_assoc; exact Hvalue).
    assert (Hoff : (length pre + length (escape e0))%nat = length (pre ++ escape e0))
      by (rewrite length_app; reflexivity).
    assert (Hlen : length value = (length pre + length (escape e0) + length tail)%nat)
      by (rewrite Hv, !length_app; reflexivity).
    rewrite split_from_eq.
    assert (Hfound : find_comma value (length pre + length (escape e0))
                     = (length pre + length (escape e0))%nat).
    { rewrite Hoff, Hv. destruct Hclean as [->|(tail' & -> & _)].
      - rewrite app_nil_r. apply find_comma_end.
      - apply find_comma_here. reflexivity. }
    rewrite Hfound.
    replace (length value <? length pre + length (escape e0)) with false
      by (symmetry; apply Nat.ltb_ge; lia).
    assert (Hpair : (length pre + length (escape e0) + 1 <? length value)
                    && Ascii.eqb (char_at value (length pre + length (escape e0) + 1)) comma
                    = false).
    { destruct Hclean as [->|(tail' & -> & Hs)].
      - apply andb_false_intro1. apply Nat.ltb_ge. cbn [length] in Hlen. lia.
      - destruct tail' as [|x tail'].
        + apply andb_false_intro1. apply Nat.ltb_ge. cbn [length] in Hlen. lia.
        + apply andb_false_intro2. rewrite Hv, Hoff, char_at_app. exact Hs. }
    rewrite Hpair.
    replace (length pre + length (escape e0) - length pre)%nat with (length (escape e0)) by lia.
    pose proof (copy_element_escape e0 (length (escape e0)) pre tail [] (le_n _)) as Hcopy.
    rewrite <- Hvalue in Hcopy. rewrite Hcopy. reflexivity.
  - set (u := if Ascii.eqb c comma then [c; c] else [c]).
    assert (Hc1 : escape (c :: e1) = u ++ escape e1) by reflexivity.
    assert (Hc0 : escape (e0 ++ [c]) = escape e0 ++ u).
    { rewrite escape_app. unfold escape at 2. cbn [flat_map]. rewrite app_nil_r. reflexivity. }
    assert (Hv : value = (pre ++ escape e0) ++ u ++ escape e1 ++ tail).
    { rewrite Hvalue, Hc1, <- !app_assoc. reflexivity. }
    assert (Hoff : (length pre + length (escape e0))%nat = length (pre ++ escape e0))
      by (rewrite length_app; reflexivity).
    assert (Hlen : length value
                   = (length pre + length (escape e0) + length u
                      + length (escape e1) + length tail)%nat)
      by (rewrite Hv, !length_app; lia).
    specialize (IH (e0 ++ [c]) pre tail value elements Hclean).
    rewrite Hc0 in IH. rewrite length_app in IH.
    assert (Hv0 : value = pre ++ (escape e0 ++ u) ++ escape e1 ++ tail).
    { rewrite Hv, <- !app_assoc. reflexivity. }
    specialize (IH Hv0). rewrite <- app_assoc in IH. cbn [app] in IH.
    rewrite Hc1, length_app.
    replace (length pre + length (escape e0) + (length u + length (escape e1)) + 1)%nat
      with (length pre + (length (escape e0) + length u) + length (escape e1) + 1)%nat
      by lia.
    rewrite <- IH. clear IH Hv0 Hc0 Hc1.
    subst u. destruct (Ascii.eqb c comma) eqn:Ec; cbn [app length] in Hv, Hlen |- *.
    + rewrite split_from_eq.
      assert (Hfound : find_comma value (length pre + length (escape e0))
                       = (length pre + length (escape e0))%nat).
      { rewrite Hoff, Hv. apply find_comma_here. exact Ec. }
      rewrite Hfound.
      replace (length value <? length pre + length (escape e0)) with false
        by (symmetry; apply Nat.ltb_ge; lia).
      replace (length pre + length (escape e0) + 1 <? length value) with true
        by (symmetry; apply Nat.ltb_lt; lia).
      replace (char_at value (length pre + length (escape e0) + 1)) with c
        by (rewrite Hv, Hoff, char_at_app; reflexivity).
      rewrite Ec. cbn [andb]. f_equal. lia.
    + rewrite Hoff. rewrite Hv at 1. rewrite skip_char by exact Ec.
      rewrite <- Hv, <- Hoff. f_equal. lia.
Qed.

Lemma starts_with_comma_join (e : str) (rest : list str) :
  starts_with_comma e = false -> (negb (is_empty e) || is_empty rest) = true ->
  starts_with_comma (join (e :: rest)) = false.
Proof.
  intros Hs He. destruct e as [|x e].
  - destruct rest; [reflexivity | discriminate].
  - cbn [starts_with_comma] in Hs.
    assert (H : exists t, join ((x :: e) :: rest) = x :: t).
    { cbn [join]. unfold escape. cbn [flat_map]. rewrite Hs.
      destruct rest; eexists; reflexivity. }
    destruct H as [t ->]. exact Hs.
Qed.

(** From the start of an element the loop appends this element and all
    that follow. *)
Lemma split_join (rest : list str) : forall (e pre value : str) (elements : list str),
  tail_ok rest = true ->
  value = pre ++ join (e :: rest) ->
  split_from value (length pre) (length pre) elements = elements ++ e :: rest.
Proof.
  induction rest as [|e2 rest IH]; intros e pre value elements Hok Hvalue.
  - cbn [join] in Hvalue.
    pose proof (scan_element e [] pre [] value elements (or_introl eq_refl)) as Hscan.
    cbn [escape flat_map app length] in Hscan. rewrite app_nil_r, Nat.add_0_r in Hscan.
    rewrite (Hscan Hvalue), split_from_eq.
    replace (length value <? length pre + length (escape e) + 1) with true
      by (symmetry; apply Nat.ltb_lt; rewrite Hvalue, length_app; lia).
    reflexivity.
  - cbn [tail_ok] in Hok. apply andb_prop in Hok as [Hok Hrest].
    apply andb_prop in Hok as [Hs He]. apply negb_true_iff in Hs.
    assert (Hj : join (e :: e2 :: rest) = escape e ++ comma :: join (e2 :: rest))
      by reflexivity.
    rewrite Hj in Hvalue.
    pose proof (scan_element e [] pre (comma :: join (e2 :: rest)) value elements) as Hscan.
    cbn [escape flat_map app length] in Hscan. rewrite Nat.add_0_r in Hscan.
    rewrite Hscan; [|right; eexists; split;
                      [reflexivity | apply starts_with_comma_join; assumption] | exact Hvalue].
    replace (length pre + length (escape e) + 1)%nat
      with (length (pre ++ escape e ++ [comma]))
      by (rewrite !length_app; cbn [length]; lia).
    rewrite (IH e2 (pre ++ escape e ++ [comma]) value (elements ++ [e]) Hrest).
    + rewrite <- app_assoc. reflexivity.
    + rewrite Hvalue, <- !app_assoc. reflexivity.
Qed.

Lemma save_value_join (elements : list str) : save_value elements = join elements.
Proof.
  unfold save_value. induction elements as [|e rest IH]; [reflexivity|].
  cbn [map concat]. destruct rest as [|e2 rest].
  - cbn [map concat join]. rewrite app_nil_r. apply removelast_last.
  - rewrite removelast_app.
    + rewrite IH, <- app_assoc. reflexivity.
    + cbn [map concat]. destruct (escape e2); discriminate.
Qed.

Lemma load_value_split (value : str) :
  value <> [] -> load_value value = split_from value 0 0 [].
Proof. destruct value; [congruence | reflexivity]. Qed.

Lemma escape_nonempty (e : str) : e <> [] -> escape e <> [].
Proof.
  destruct e as [|c e]; [congruence|]. intros _. unfold escape. cbn [flat_map].
  destruct (Ascii.eqb c comma); discriminate.
Qed.

(** C8 as the code has it: the lists of elements in which no element after
    the first begins with a comma, no element strictly between the first
    and the last is empty, and which are not the single empty element, are
    read back unchanged from what [save] writes; so is the empty list. *)
Theorem value_round_trip (elements : list str) :
  roundtrip_ok elements = true ->
  load_value (save_key_value elements) = elements.
Proof.
  intros Hok. destruct elements as [|e rest]; [reflexivity|].
  cbn [save_key_value]. rewrite save_value_join.
  assert (Hne : join (e :: rest) <> []).
  { destruct rest as [|e2 rest].
    - cbn [roundtrip_ok] in Hok. apply escape_nonempty.
      destruct e; [discriminate | congruence].
    - cbn [join]. destruct (escape e); discriminate. }
  rewrite load_value_split by exact Hne.
  apply (split_join rest e [] (join (e :: rest)) []); [|reflexivity].
  destruct rest as [|e2 rest]; [reflexivity | exact Hok].
Qed.

Lemma value_round_trip_witness :
  load_value (save_key_value [elem_a_comma; elem_b; []]) = [elem_a_comma; elem_b; []].
Proof. apply (value_round_trip [elem_a_comma; elem_b; []]). reflexivity. Defined.

(** C8 as stated fails: an element that begins with a comma moves its comma
    to the element before it, and a single empty element is lost. *)
Lemma value_round_trip_fails :
  load_value (save_key_value [elem_a; elem_comma_b]) = [elem_a_comma; elem_b] /\
  load_value (save_key_value [elem_a; elem_comma_b]) <> [elem_a; elem_comma_b] /\
  load_value (save_key_value [[]]) <> [[]].
Proof. split; [reflexivity | split; discriminate]. Qed.

Section SaveFacts.

Variable ndebug : bool.
Variable sort : list str -> list str.
Variable one_second : Z.

(** C9: an unmodified file is saved by returning true at once, nothing
    touched; after any call the modification flag is false; a call that
    returns false leaves the file on disk as it was but has cleared the flag
    (the state differs from the one before the call), and the cache flush
    then makes no further attempt for this file. *)
Theorem save_clears_modified_flag
    (f f' : ini_file) (fs fs' : file_state) (r : save_outcome) :
  save ndebug sort f fs = (r, f', fs') ->
  _modified f' = false /\
  (_modified f = false -> r = Returned true /\ f' = f /\ fs' = fs) /\
  (r = Returned false ->
     _modified f = true /\ f' = with_modified f false /\ f' <> f /\ fs' = fs /\
     forall now : Z,
       flush_entry ndebug sort one_second now f' fs' = (Returned true, f', fs')).
Proof.
  unfold save. destruct (_modified f) eqn:Hm; cbn [negb].
  - destruct (match last_write_time fs with Some _ => _ | None => _ end).
    + intros [= <- <- <-]. split; [reflexivity|]. split; [discriminate|].
      intros _. repeat split; try reflexivity.
      intros Heq. rewrite <- Heq in Hm. discriminate.
    + destruct (writable fs); cbn [negb].
      * destruct (ndebug || _); intros [= <- <- <-];
          (split; [reflexivity|]); (split; [discriminate|]); discriminate.
      * intros [= <- <- <-]. split; [reflexivity|]. split; [discriminate|].
        intros _. repeat split; try reflexivity.
        intros Heq. rewrite <- Heq in Hm. discriminate.
  - intros [= <- <- <-]. split; [exact Hm|]. split; [auto|]. discriminate.
Qed.

End SaveFacts.

Lemma save_clears_modified_flag_witness :
  _modified (with_modified sample_ini false) = false.
Proof.
  apply (save_clears_modified_flag false (fun l => l) 10 sample_ini
           (with_modified sample_ini false) sample_file sample_file (Returned false)).
  reflexivity.
Defined.

(** The loop from inside an element, on any value: it produces what
    [split_spec] reads off the rest of the value. *)
Lemma split_from_spec (n : nat) : forall (s m pre value : str) (elements : list str),
  length s <= n ->
  value = pre ++ escape m ++ s ->
  split_from value (length pre + length (escape m)) (length pre) elements
  = elements ++ split_spec s m.
Proof.
  induction n as [|n IH]; intros s m pre value elements Hn Hvalue.
  - destruct s; [|cbn in Hn; lia]. rewrite app_nil_r in Hvalue.
    pose proof (scan_element [] m pre [] value elements (or_introl eq_refl)) as Hscan.
    cbn [escape flat_map app length] in Hscan. rewrite Nat.add_0_r, !app_nil_r in Hscan.
    rewrite (Hscan Hvalue), split_from_eq.
    replace (length value <? length pre + length (escape m) + 1) with true
      by (symmetry; apply Nat.ltb_lt; rewrite Hvalue, !length_app; cbn [length]; lia).
    reflexivity.
  - destruct s as [|c s'].
    { apply (IH [] m pre value elements); [cbn; lia | exact Hvalue]. }
    cbn [length] in Hn. cbn [split_spec].
    assert (Hv : value = (pre ++ escape m) ++ c :: s')
      by (rewrite Hvalue, <- app_assoc; reflexivity).
    assert (Hoff : (length pre + length (escape m))%nat = length (pre ++ escape m))
      by (rewrite length_app; reflexivity).
    destruct (Ascii.eqb c comma) eqn:Ec.
    + apply Ascii.eqb_eq in Ec. subst c.
      assert (Hsep : forall s, starts_with_comma s = false -> length s <= n ->
                value = pre ++ escape m ++ comma :: s ->
                split_from value (length pre + length (escape m)) (length pre) elements
                = elements ++ m :: split_spec s []).
      { intros s Hs Hlen Hval.
        pose proof (scan_element [] m pre (comma :: s) value elements) as Hscan.
        cbn [escape flat_map app length] in Hscan. rewrite Nat.add_0_r, !app_nil_r in Hscan.
        rewrite Hscan; [|right; exists s; split; [reflexivity | exact Hs] | exact Hval].
        replace (length pre + length (escape m) + 1)%nat
          with (length (pre ++ escape m ++ [comma]) + length (escape []))%nat
          by (rewrite !length_app; cbn [length escape flat_map]; lia).
        replace (length (pre ++ escape m ++ [comma]) + length (escape []))%nat
          with (length (pre ++ escape m ++ [comma])) at 2
          by (cbn [length escape flat_map]; lia).
        rewrite (IH s [] (pre ++ escape m ++ [comma]) value (elements ++ [m]) Hlen).
        - rewrite <- app_assoc. reflexivity.
        - rewrite Hval, <- !app_assoc. reflexivity. }
      destruct s' as [|c' s''].
      * apply Hsep; [reflexivity | cbn; lia | exact Hvalue].
      * destruct (Ascii.eqb c' comma) eqn:Ec'.
        -- apply Ascii.eqb_eq in Ec'. subst c'. cbn [length] in Hn.
           rewrite split_from_eq.
           assert (Hlen : length value
                          = (length pre + length (escape m) + 2 + length s'')%nat)
             by (rewrite Hv, !length_app; cbn [length]; lia).
           assert (Hfound : find_comma value (length pre + length (escape m))
                            = (length pre + length (escape m))%nat).
           { rewrite Hoff, Hv. apply find_comma_here. reflexivity. }
           rewrite Hfound.
           replace (length value <? length pre + length (escape m)) with false
             by (symmetry; apply Nat.ltb_ge; lia).
           replace (length pre + length (escape m) + 1 <? length value) with true
             by (symmetry; apply Nat.ltb_lt; lia).
           replace (char_at value (length pre + length (escape m) + 1)) with comma
             by (rewrite Hv, Hoff, char_at_app; reflexivity).
           cbn [Ascii.eqb Bool.eqb comma andb].
           assert (Hesc : escape (m ++ [comma]) = escape m ++ [comma; comma])
             by (rewrite escape_app; reflexivity).
           replace (length pre + length (escape m) + 2)%nat
             with (length pre + length (escape (m ++ [comma])))%nat
             by (rewrite Hesc, length_app; cbn [length]; lia).
           apply IH; [lia|]. rewrite Hesc, Hvalue, <- !app_assoc. reflexivity.
        -- apply Hsep; [exact Ec' | lia | exact Hvalue].
    + rewrite Hoff. rewrite Hv at 1. rewrite skip_char by exact Ec. rewrite <- Hv.
      assert (Hesc : escape (m ++ [c]) = escape m ++ [c]).
      { rewrite escape_app. unfold escape at 2. cbn [flat_map]. rewrite Ec. reflexivity. }
      replace (S (length (pre ++ escape m)))
        with (length pre + length (escape (m ++ [c])))%nat
        by (rewrite Hesc, !length_app; cbn [length]; lia).
      apply IH; [lia|]. rewrite Hesc, Hvalue, <- !app_assoc. reflexivity.
Qed.

Lemma split_value_unfold (value : str) (elements : list str) :
  split_value value elements = elements ++ split_spec value [].
Proof.
  unfold split_value.
  apply (split_from_spec (length value) value [] [] value elements (le_n _)).
  reflexivity.
Qed.

(** X9: On every value and whatever the key holds already, the splitting loop
    of [load] appends the elements that [split_spec] reads off the value. *)
Theorem split_value_is_split_spec (value : str) (elements : list str) :
  split_value value elements = elements ++ split_spec value [] /\
  split_value value elements = elements ++ split_value value [].
Proof.
  rewrite (split_value_unfold value []), split_value_unfold. split; reflexivity.
Qed.

Lemma split_spec_char (c : ascii) (s cur : str) :
  Ascii.eqb c comma = false -> split_spec (c :: s) cur = split_spec s (cur ++ [c]).
Proof. intros Hc. cbn [split_spec]. rewrite Hc. reflexivity. Qed.

Lemma split_spec_pair (s cur : str) :
  split_spec (comma :: comma :: s) cur = split_spec s (cur ++ [comma]).
Proof. reflexivity. Qed.

Lemma split_spec_sep (s cur : str) :
  starts_with_comma s = false -> split_spec (comma :: s) cur = cur :: split_spec s [].
Proof.
  intros Hs. destruct s as [|c s]; [reflexivity|].
  cbn [starts_with_comma] in Hs. change (split_spec (comma :: c :: s) cur)
    with (if Ascii.eqb c comma then split_spec s (cur ++ [comma])
          else cur :: split_spec (c :: s) []).
  rewrite Hs. reflexivity.
Qed.

(** The three ways a text can begin. *)
Lemma text_cases (s : str) :
  s = [] \/
  (exists c s', s = c :: s' /\ Ascii.eqb c comma = false) \/
  (exists s'', s = comma :: comma :: s'') \/
  (exists s', s = comma :: s' /\ starts_with_comma s' = false).
Proof.
  destruct s as [|c s']; [left; reflexivity|]. right.
  destruct (Ascii.eqb c comma) eqn:Ec; [|left; eauto].
  apply Ascii.eqb_eq in Ec. subst c. right.
  destruct (starts_with_comma s') eqn:Es; [|right; eauto].
  left. destruct s' as [|c' s'']; [discriminate|]. cbn [starts_with_comma] in Es.
  apply Ascii.eqb_eq in Es. subst c'. eauto.
Qed.

Lemma split_spec_nonempty (n : nat) : forall s cur : str,
  length s <= n -> split_spec s cur <> [].
Proof.
  induction n as [|n IH]; intros s cur Hn.
  - destruct s; [discriminate | cbn in Hn; lia].
  - destruct (text_cases s) as [->|[(c & s' & -> & Hc)|[(s'' & ->)|(s' & -> & Hs)]]];
      cbn [length] in Hn.
    + discriminate.
    + rewrite split_spec_char by exact Hc. apply IH. lia.
    + rewrite split_spec_pair. apply IH. lia.
    + rewrite split_spec_sep by exact Hs. discriminate.
Qed.

Lemma join_cons (e : str) (rest : list str) :
  rest <> [] -> join (e :: rest) = escape e ++ comma :: join rest.
Proof. destruct rest; [congruence | reflexivity]. Qed.

Lemma escape_snoc (m : str) (c : ascii) :
  escape (m ++ [c]) = escape m ++ (if Ascii.eqb c comma then [c; c] else [c]).
Proof.
  rewrite escape_app. unfold escape at 2. cbn [flat_map]. rewrite app_nil_r. reflexivity.
Qed.

(** Writing the elements read off a text gives the text back. *)
Lemma join_split_spec (n : nat) : forall s cur : str,
  length s <= n -> join (split_spec s cur) = escape cur ++ s.
Proof.
  induction n as [|n IH]; intros s cur Hn.
  - destruct s; [|cbn in Hn; lia]. cbn [split_spec join]. rewrite app_nil_r. reflexivity.
  - destruct (text_cases s) as [->|[(c & s' & -> & Hc)|[(s'' & ->)|(s' & -> & Hs)]]];
      cbn [length] in Hn.
    + cbn [split_spec join]. rewrite app_nil_r. reflexivity.
    + rewrite split_spec_char by exact Hc. rewrite IH by lia.
      rewrite escape_snoc, Hc, <- app_assoc. reflexivity.
    + rewrite split_spec_pair. rewrite IH by lia.
      rewrite escape_snoc. cbn [Ascii.eqb Bool.eqb comma]. rewrite <- app_assoc.
      reflexivity.
    + rewrite split_spec_sep by exact Hs.
      rewrite join_cons by (apply (split_spec_nonempty n); lia).
      rewrite IH by lia. reflexivity.
Qed.

Lemma load_value_spec (value : str) :
  load_value value = match value with [] => [] | _ :: _ => split_spec value [] end.
Proof.
  destruct value as [|c value]; [reflexivity|]. unfold load_value.
  rewrite split_value_unfold. reflexivity.
Qed.

Lemma save_of_load (value : str) : save_key_value (load_value value) = value.
Proof.
  rewrite load_value_spec. destruct value as [|c value]; [reflexivity|].
  pose proof (split_spec_nonempty _ (c :: value) [] (le_n _)) as Hne.
  pose proof (join_split_spec _ (c :: value) [] (le_n _)) as Hj.
  destruct (split_spec (c :: value) []) as [|e rest]; [congruence|].
  cbn [save_key_value]. rewrite save_value_join. exact Hj.
Qed.

(** X10: Whatever the value text, writing the elements that [load] read
    from that one value (for a key not seen before) gives the text back
    character for character; so these elements are read back unchanged
    after a [save]. *)
Theorem save_after_load_restores_value (value : str) :
  save_key_value (load_value value) = value /\
  load_value (save_key_value (load_value value)) = load_value value.
Proof.
  pose proof (save_of_load value) as H.
  split; [exact H | rewrite H; reflexivity].
Qed.

Lemma split_spec_no_comma (s : str) : forall cur : str,
  Forall (fun c => is_comma c = false) s -> split_spec s cur = [cur ++ s].
Proof.
  induction s as [|c s IH]; intros cur Hs; cbn [split_spec].
  - rewrite app_nil_r. reflexivity.
  - apply Forall_cons in Hs as [Hc Hs]. unfold is_comma in Hc. rewrite Hc.
    rewrite IH by exact Hs. rewrite <- app_assoc. reflexivity.
Qed.

(** X11: A non-empty value without a comma is read as the single element that
    is the value itself. *)
Theorem value_without_comma_is_one_element (value : str) :
  value <> [] -> Forall (fun c => is_comma c = false) value ->
  load_value value = [value].
Proof.
  intros Hne Hs. rewrite load_value_spec. destruct value; [congruence|].
  apply (split_spec_no_comma _ []). exact Hs.
Qed.

Lemma value_without_comma_is_one_element_witness :
  load_value elem_a = [elem_a].
Proof.
  apply (value_without_comma_is_one_element elem_a); [discriminate | repeat constructor].
Defined.

Lemma filter_escape (e : str) :
  List.filter (fun c => negb (is_comma c)) (escape e)
  = List.filter (fun c => negb (is_comma c)) e.
Proof.
  induction e as [|c e IH]; [reflexivity|].
  change (escape (c :: e)) with ((if Ascii.eqb c comma then [c; c] else [c]) ++ escape e).
  rewrite List.filter_app, IH. unfold is_comma at 1 3. cbn [List.filter].
  destruct (Ascii.eqb c comma) eqn:Ec; cbn [List.filter]; unfold is_comma; rewrite Ec;
    reflexivity.
Qed.

Lemma filter_join (l : list str) :
  List.filter (fun c => negb (is_comma c)) (join l)
  = List.filter (fun c => negb (is_comma c)) (concat l).
Proof.
  induction l as [|e rest IH]; [reflexivity|].
  destruct rest as [|e2 rest].
  - cbn [join concat]. rewrite app_nil_r. apply filter_escape.
  - rewrite join_cons by discriminate. change (concat (e :: e2 :: rest))
      with (e ++ concat (e2 :: rest)).
    rewrite !List.filter_app, filter_escape. f_equal.
    cbn [List.filter]. unfold is_comma at 1. cbn [Ascii.eqb Bool.eqb comma negb].
    exact IH.
Qed.

(** X12: Splitting loses and reorders no character other than commas: the
    elements read from a value, put one after the other and their commas
    removed, are the value with its commas removed. *)
Theorem split_keeps_other_characters (value : str) :
  List.filter (fun c => negb (is_comma c)) (concat (load_value value))
  = List.filter (fun c => negb (is_comma c)) value.
Proof.
  rewrite <- filter_join.
  pose proof (save_value_join (load_value value)) as Hj.
  pose proof (save_of_load value) as H.
  destruct (load_value value) as [|e rest] eqn:E.
  - cbn [save_key_value] in H. subst value. reflexivity.
  - cbn [save_key_value] in H. rewrite <- Hj, H. reflexivity.
Qed.





Section SaveAssertion.

Variable sort : list str -> list str.

(** [std::sort] rearranges the names. *)
Hypothesis sort_permutation : forall l : list str, sort l ≡ₚ l.

Lemma serialize_empty_iff (sections : gmap str (gmap str (list str))) :
  serialize sort sections = [] <-> sections = ∅.
Proof.
  unfold serialize. split.
  - intros H. apply map_to_list_empty_iff.
    destruct (map_to_list sections) as [|x l] eqn:E; [reflexivity|]. exfalso.
    pose proof (sort_permutation (map fst (x :: l))) as Hp.
    apply Permutation_length in Hp.
    destruct (sort (map fst (x :: l))) as [|name names]; [discriminate|].
    cbn [flat_map] in H. apply app_eq_nil in H as [H _].
    apply app_eq_nil in H as [_ H]. apply app_eq_nil in H as [_ H]. discriminate.
  - intros ->. rewrite map_to_list_empty. cbn [map].
    pose proof (sort_permutation []) as Hp. apply Permutation_nil_r in Hp.
    rewrite Hp. reflexivity.
Qed.

(** X14: A modified file that may be written (not newer on disk, can be opened)
    is written in full and its time taken over; with assertions compiled in
    the call then fails its final assertion exactly when there is no
    section at all, the file having been written empty. *)
Theorem save_assertion_iff_no_section (f : ini_file) (fs : file_state) :
  _modified f = true ->
  match last_write_time fs with
  | Some t => (t <= _modified_at f)%Z
  | None => True
  end ->
  writable fs = true ->
  save false sort f fs
  = (if decide (_sections f = ∅) then SaveAssertionFailed else Returned true,
     with_modified_at (with_modified f false) (next_write_time fs),
     {| last_write_time := Some (next_write_time fs);
        contents := serialize sort (_sections f);
        writable := true; next_write_time := next_write_time fs |}) /\
  (_sections f = ∅ -> serialize sort (_sections f) = []).
Proof.
  intros Hm Ht Hw. split; [|apply serialize_empty_iff].
  unfold save. rewrite Hm, Hw. cbn [negb].
  replace (match last_write_time fs with
           | Some modified_at => (_modified_at (with_modified f false) <? modified_at)%Z
           | None => false
           end) with false
    by (destruct (last_write_time fs); [symmetry; apply Z.ltb_ge; exact Ht | reflexivity]).
  cbn [orb]. destruct (decide (_sections f = ∅)) as [He|Hne].
  - apply serialize_empty_iff in He. cbn [_sections with_modified].
    rewrite He. reflexivity.
  - assert (Hs : serialize sort (_sections f) <> [])
      by (intros Hs; apply Hne, serialize_empty_iff, Hs).
    cbn [_sections with_modified].
    destruct (serialize sort (_sections f)); [congruence | reflexivity].
Qed.

End SaveAssertion.

Lemma save_assertion_iff_no_section_witness :
  fst (fst (save false (fun l => l) sample_ini sample_file_old)) = SaveAssertionFailed /\
  contents (snd (save false (fun l => l) sample_ini sample_file_old)) = [].
Proof.
  destruct (save_assertion_iff_no_section (fun l => l) (fun l => Permutation_refl l)
              sample_ini sample_file_old eq_refl) as [H _];
    [cbn; lia | reflexivity |].
  rewrite H. split; reflexivity.
Defined.

Section LoadFacts.

Variable trim : str -> str -> str.
Variable file_time_min : Z.
Variable ndebug : bool.
Variable sort : list str -> list str.

(** X15: What was just saved is not read again: after a save that wrote the
    file, the next [load] returns at once and keeps the state in memory. *)
Theorem load_after_save_keeps_state
    (can_open : bool) (f f' : ini_file) (fs fs' : file_state) :
  _modified f = true ->
  save ndebug sort f fs = (Returned true, f', fs') ->
  load trim file_time_min can_open f' fs' = f' /\
  _sections f' = _sections f /\
  contents fs' = serialize sort (_sections f).
Proof.
  intros Hm. unfold save. rewrite Hm. cbn [negb].
  destruct (match last_write_time fs with Some _ => _ | None => _ end); [discriminate|].
  destruct (writable fs); cbn [negb]; [|discriminate].
  destruct (ndebug || _); [|discriminate].
  intros [= <- <-]. split; [|split; reflexivity].
  unfold load. cbn [last_write_time _modified_at with_modified_at default].
  rewrite Z.leb_refl. reflexivity.
Qed.

Lemma load_up_to_date (can_open : bool) (f : ini_file) (fs : file_state) (t : Z) :
  last_write_time fs = Some t -> (t <= _modified_at f)%Z ->
  load trim file_time_min can_open f fs = f.
Proof.
  intros Ht Hle. unfold load. rewrite Ht. cbv [default from_option id].
  replace (t <=? _modified_at f)%Z with true by (symmetry; apply Z.leb_le; exact Hle).
  reflexivity.
Qed.

Lemma load_cannot_open (f : ini_file) (fs : file_state) :
  match last_write_time fs with
  | Some t => (_modified_at f < t)%Z
  | None => True
  end ->
  load trim file_time_min false f fs = with_sections f ∅.
Proof.
  intros H. unfold load. destruct (last_write_time fs) as [t|]; cbv [default from_option id].
  - replace (t <=? _modified_at f)%Z with false by (symmetry; apply Z.leb_gt; exact H).
    reflexivity.
  - reflexivity.
Qed.

Lemma load_reads (f : ini_file) (fs : file_state) :
  match last_write_time fs with
  | Some t => (_modified_at f < t)%Z
  | None => True
  end ->
  load trim file_time_min true f fs
  = with_sections
      (with_modified_at (with_modified f false)
         (default file_time_min (last_write_time fs)))
      (snd (fold_left (load_line trim) (getlines (skip_bom (contents fs)) []) ([], ∅))).
Proof.
  intros H. unfold load. destruct (last_write_time fs) as [t|]; cbv [default from_option id].
  - replace (t <=? _modified_at f)%Z with false by (symmetry; apply Z.leb_gt; exact H).
    reflexivity.
  - reflexivity.
Qed.

(** X16: Loading twice in a row, the file on disk being the same, gives what
    loading once gives. *)
Theorem load_twice (can_open : bool) (f : ini_file) (fs : file_state) :
  load trim file_time_min can_open (load trim file_time_min can_open f fs) fs
  = load trim file_time_min can_open f fs.
Proof.
  destruct (last_write_time fs) as [t|] eqn:Ht.
  - destruct (Z.le_gt_cases t (_modified_at f)) as [Hle|Hgt].
    + rewrite !(load_up_to_date can_open f fs t Ht Hle). reflexivity.
    + destruct can_open.
      * rewrite (load_reads f fs) by (rewrite Ht; lia).
        apply (load_up_to_date true _ fs t Ht). rewrite Ht. cbn. lia.
      * rewrite (load_cannot_open f fs) by (rewrite Ht; lia).
        rewrite load_cannot_open by (rewrite Ht; cbn; lia). reflexivity.
  - destruct can_open.
    + rewrite (load_reads f fs) by (rewrite Ht; exact I).
      rewrite load_reads by (rewrite Ht; exact I). reflexivity.
    + rewrite (load_cannot_open f fs) by (rewrite Ht; exact I).
      rewrite load_cannot_open by (rewrite Ht; exact I). reflexivity.
Qed.

Lemma skip_bom_bom (text : str) : skip_bom (bom ++ text) = text.
Proof. reflexivity. Qed.

Lemma skip_bom_other (text : str) :
  match text with [] => True | c :: _ => c <> "239"%char end ->
  skip_bom text = text.
Proof.
  destruct text as [|c text]; [reflexivity|]. intros Hc. cbn [skip_bom].
  destruct (Ascii.eqb_spec c "239"%char); [contradiction | reflexivity].
Qed.

(** X17: A byte order mark at the start of the file is not part of what is
    read: a file that begins with the three bytes of the mark is loaded as
    the same file without them (whose text does not begin with the byte
    0xef). *)
Theorem byte_order_mark_is_skipped
    (can_open : bool) (f : ini_file) (fs : file_state) (text : str) :
  match text with [] => True | c :: _ => c <> "239"%char end ->
  load trim file_time_min can_open f (with_contents fs (bom ++ text))
  = load trim file_time_min can_open f (with_contents fs text).
Proof.
  intros Hc. unfold load. cbn [last_write_time contents with_contents].
  rewrite skip_bom_bom, (skip_bom_other text Hc). reflexivity.
Qed.

Lemma extends_refl (m : gmap str (gmap str (list str))) : extends m m.
Proof.
  intros section key keys elements Hs Hk. exists keys, [].
  rewrite app_nil_r. split; assumption.
Qed.

Lemma extends_trans (m1 m2 m3 : gmap str (gmap str (list str))) :
  extends m1 m2 -> extends m2 m3 -> extends m1 m3.
Proof.
  intros H12 H23 section key keys elements Hs Hk.
  destruct (H12 _ _ _ _ Hs Hk) as (keys2 & more2 & Hs2 & Hk2).
  destruct (H23 _ _ _ _ Hs2 Hk2) as (keys3 & more3 & Hs3 & Hk3).
  exists keys3, (more2 ++ more3). rewrite app_assoc. split; assumption.
Qed.

Lemma insert_key_extends (m : gmap str (gmap str (list str))) (section key : str) :
  extends m (insert_key m section key).
Proof.
  intros section' key' keys elements Hs Hk. unfold insert_key.
  destruct (decide (section = section')) as [<-|Hne].
  - rewrite lookup_insert_eq, Hs. cbv [default from_option id].
    destruct (keys !! key) as [e|] eqn:Hkey.
    + exists keys, []. rewrite app_nil_r. split; [reflexivity | exact Hk].
    + exists (<[key := []]> keys), []. rewrite app_nil_r. split; [reflexivity|].
      rewrite lookup_insert_ne by congruence. exact Hk.
  - rewrite lookup_insert_ne by exact Hne. exists keys, [].
    rewrite app_nil_r. split; assumption.
Qed.

Lemma append_value_extends (m : gmap str (gmap str (list str)))
    (section key value : str) :
  extends m (append_value m section key value).
Proof.
  intros section' key' keys elements Hs Hk. unfold append_value.
  destruct (decide (section = section')) as [<-|Hne].
  - rewrite lookup_insert_eq, Hs. cbv [default from_option id].
    destruct (decide (key = key')) as [<-|Hkne].
    + rewrite Hk. cbv [default from_option id]. rewrite split_value_unfold.
      exists (<[key := elements ++ split_spec value []]> keys), (split_spec value []).
      split; [reflexivity | apply lookup_insert_eq].
    + eexists _, []. rewrite app_nil_r. split; [reflexivity|].
      rewrite lookup_insert_ne by exact Hkne. exact Hk.
  - rewrite lookup_insert_ne by exact Hne. exists keys, [].
    rewrite app_nil_r. split; assumption.
Qed.

Lemma load_line_extends (st : str * gmap str (gmap str (list str))) (line : str) :
  extends (snd st) (snd (load_line trim st line)).
Proof.
  destruct st as [section sections]. unfold load_line.
  destruct (trim line whitespace) as [|c rest]; [apply extends_refl|].
  destruct (_ || _); [apply extends_refl|].
  destruct (Ascii.eqb c "["%char); [apply extends_refl|].
  destruct (find_first_of _ _ _) as [i|]; [|apply insert_key_extends].
  destruct (trim (substr _ (i + 1) None) whitespace);
    [apply insert_key_extends | apply append_value_extends].
Qed.

(** X18: Whatever [trim] does, no line removes a key or the elements read from
    earlier lines: after any number of lines every key that was there is
    still there and its elements are the earlier ones followed by those
    read since (a key that occurs again has its values appended). *)
Theorem lines_only_append (lines : list str) :
  forall st : str * gmap str (gmap str (list str)),
  extends (snd st) (snd (fold_left (load_line trim) lines st)).
Proof.
  induction lines as [|line lines IH]; intros st; cbn [fold_left].
  - apply extends_refl.
  - apply (extends_trans _ (snd (load_line trim st line))).
    + apply load_line_extends.
    + apply IH.
Qed.

End LoadFacts.

Lemma load_after_save_keeps_state_witness :
  load no_trim 0 true
    (snd (fst (save false (fun l => l) sample_ini_saved sample_file)))
    (snd (save false (fun l => l) sample_ini_saved sample_file))
  = snd (fst (save false (fun l => l) sample_ini_saved sample_file)).
Proof.
  apply (load_after_save_keeps_state no_trim 0 false (fun l => l) true
           sample_ini_saved _ sample_file _ eq_refl).
  vm_compute. reflexivity.
Defined.

Lemma byte_order_mark_is_skipped_witness :
  load no_trim 0 true sample_ini (with_contents sample_file (bom ++ elem_a))
  = load no_trim 0 true sample_ini (with_contents sample_file elem_a).
Proof.
  apply (byte_order_mark_is_skipped no_trim 0 true sample_ini sample_file elem_a).
  discriminate.
Defined.

End IniFileFacts.
